(** * Recitation-alignment engine: normalizer, scorer, aligner, comparator

    A shallow embedding of the text-processing core of the recitation
    checker (the [check-recitation] and [final-analysis] API routes) and
    the properties of it that are stated in the specification.

    JavaScript strings are sequences of UTF-16 code units; the regular
    expressions of the source carry no [u] flag, so they work on code
    units as well.  A string is therefore a [list N]. *)

From Stdlib Require Import QArith Qround Sorted.
From stdpp Require Import strings gmultiset base list gmap sets.

Open Scope N_scope.

(** ** JavaScript string primitives *)

Abbreviation char := N (only parsing).
Abbreviation str := (list N) (only parsing).

(** [\s] of a regular expression, which is also the set that
    [String.prototype.trim] strips: WhiteSpace and LineTerminator. *)
Definition is_space (c : char) : bool :=
  (9 <=? c) && (c <=? 13)
  || (c =? 32) || (c =? 0xA0) || (c =? 0x1680)
  || (0x2000 <=? c) && (c <=? 0x200A)
  || (c =? 0x2028) || (c =? 0x2029) || (c =? 0x202F) || (c =? 0x205F)
  || (c =? 0x3000) || (c =? 0xFEFF).

(** [\d] without the [u] flag: the ASCII digits only. *)
Definition is_digit (c : char) : bool := (0x30 <=? c) && (c <=? 0x39).

Definition in_range (lo hi c : char) : bool := (lo <=? c) && (c <=? hi).

Definition one_of (cs : str) (c : char) : bool := existsb (N.eqb c) cs.

(** [s.replace(/[class]/g, r)]: every code unit of the class is replaced. *)
Definition replace_class (p : char → bool) (r : str) (s : str) : str :=
  flat_map (λ c, if p c then r else [c]) s.

(** [s.replace(/class+/g, r)]: every maximal run of the class is replaced;
    [r] is emitted at the last code unit of the run. *)
Fixpoint replace_runs (p : char → bool) (r : str) (s : str) : str :=
  match s with
  | [] => []
  | c :: s' =>
      if p c then
        match s' with
        | c' :: _ => if p c' then replace_runs p r s' else r ++ replace_runs p r s'
        | [] => r
        end
      else c :: replace_runs p r s'
  end.

Fixpoint skip (p : char → bool) (s : str) : str :=
  match s with
  | c :: s' => if p c then skip p s' else s
  | [] => []
  end.

Definition at_end (s : str) : bool := match s with [] => true | _ => false end.

(** One attempt to match [/$$\s*\d+\s*$$/] at the head of the suffix [s];
    the result is what is left after the match.  [$] (no [m] flag) holds at
    the end of the input only.  The classes [\s] and [\d] are disjoint and
    what follows each star is anchored, so the greedy reading loses no
    match. *)
Definition match_verse_marker (s : str) : option str :=
  if at_end s && at_end s then
    let s1 := skip is_space s in
    match s1 with
    | d :: _ =>
        if is_digit d then
          let s2 := skip is_space (skip is_digit s1) in
          if at_end s2 && at_end s2 then Some s2 else None
        else None
    | [] => None
    end
  else None.

(** [s.replace(/$$\s*\d+\s*$$/g, "")]: scan from the left, drop each match
    (a match holds a digit, so it is never empty) and go on after it.  The
    scan visits every position, the end of the input included. *)
Fixpoint replace_verse_markers (fuel : nat) (s : str) : str :=
  match fuel with
  | O => s
  | S fuel' =>
      match match_verse_marker s with
      | Some rest => replace_verse_markers fuel' rest
      | None =>
          match s with
          | [] => []
          | c :: s' => c :: replace_verse_markers fuel' s'
          end
      end
  end.

Fixpoint trim_end (s : str) : str :=
  match s with
  | [] => []
  | c :: s' =>
      match trim_end s' with
      | [] => if is_space c then [] else [c]
      | r => c :: r
      end
  end.

(** [s.trim()] *)
Definition trim (s : str) : str := trim_end (skip is_space s).

(** [s.split(/\s+/)]: the pieces between the maximal whitespace runs; a run
    at either end leaves an empty piece there, and [""] splits to [[""]]. *)
Fixpoint split_ws (s : str) : list str :=
  match s with
  | [] => [[]]
  | c :: s' =>
      if is_space c then
        match s' with
        | c' :: _ => if is_space c' then split_ws s' else [] :: split_ws s'
        | [] => [[]; []]
        end
      else
        match split_ws s' with
        | w :: ws => (c :: w) :: ws
        | [] => [[c]]
        end
  end.

(** A string is truthy when it is not empty. *)
Definition truthy (s : str) : bool := negb (at_end s).

(** [s.split(/\s+/).filter((w) => w.trim())] *)
Definition words (s : str) : list str :=
  filter (λ w, truthy (trim w) = true) (split_ws s).

(** ** Normalizer *)

(** [normalizeArabicText] of the two API routes (the same text in both). *)
Definition normalizeArabicText (text : str) : str :=
  if negb (truthy text) then []
  else
    let s := replace_class (in_range 0x064B 0x0652) [] text in
    let s := replace_class (in_range 0x0653 0x0655) [] s in
    let s := replace_class (in_range 0x0656 0x065F) [] s in
    let s := replace_class (one_of [0x0670]) [] s in
    let s := replace_class (in_range 0x06D6 0x06ED) [] s in
    let s := replace_class (one_of [0x0640]) [] s in
    let s := replace_class (one_of [0x0623; 0x0625; 0x0622; 0x0671]) [0x0627] s in
    let s := replace_class (one_of [0x0649; 0x0626]) [0x064A] s in
    let s := replace_class (one_of [0x0629]) [0x0647] s in
    let s := replace_verse_markers (S (length s)) s in
    let s := replace_runs is_digit [] s in
    let s := replace_runs is_space [32] s in
    trim s.

(** ** Numbers

    The scores are quotients of two small counts.  They are kept as exact
    rationals: a quotient [i / u] of counts below 2^16 is either 4/5, which
    rounds to the very double that the literal [0.8] denotes, or it is
    farther from 4/5 than any rounding error, so the test against [0.8]
    gives the same answer on rationals and on doubles. *)

Definition Qlt_bool (x y : Q) : bool := negb (Qle_bool y x).

Definition ratio (a b : nat) : Q := inject_Z (Z.of_nat a) / inject_Z (Z.of_nat b).

(** [Math.round]: the nearest integer, a tie going up.  The source applies
    it to a product of doubles such as [similarity * 100], which is read
    here in exact arithmetic.  The two readings give the same integer
    unless the exact product lies half-way between two integers
    ([half_way] below): there the product of doubles can fall just below
    the tie, as [0.575 * 100] does, and the source rounds it down; the
    smallest union of code units at which this happens has 40. *)
Definition Math_round (x : Q) : Z := Qfloor (x + (1 # 2)).

(** ** Incremental aligner: the [check-recitation] route *)

Inductive error_type := incorrect | extra | missing.

Global Instance error_type_eq_dec : EqDecision error_type.
Proof. solve_decision. Defined.

Module RealtimeError.
Record t := mk {
  position : Z;
  spoken : str;
  expected : option str;   (* [None] is [undefined] *)
  type : error_type;
  similarity : Z
}.
End RealtimeError.

(** [xs[i]] for an integer [i]: [undefined] outside the array. *)
Definition js_index {A} (xs : list A) (i : Z) : option A :=
  if (i <? 0)%Z then None else xs !! Z.to_nat i.

Module CheckRecitation.

(** [calculateSimilarity]: 1 for equal normalized words, else the
    Jaccard index of their sets of code units. *)
Definition calculateSimilarity (word1 word2 : str) : Q :=
  let norm1 := normalizeArabicText word1 in
  let norm2 := normalizeArabicText word2 in
  if bool_decide (norm1 = norm2) then 1%Q
  else
    let chars1 : gset N := list_to_set norm1 in
    let chars2 : gset N := list_to_set norm2 in
    let intersection : gset N := filter (λ x, x ∈ chars2) chars1 in
    let union : gset N := chars1 ∪ chars2 in
    if (0 <? size union)%nat then ratio (size intersection) (size union) else 0%Q.

Record result := mkResult {
  errors : list RealtimeError.t;
  newPosition : Z
}.

(** The body of the [for] loop, from index [i] on; [spokenWords] is what
    is left of the array from [i], and [errors], [processedWords] are the
    two variables the loop updates. *)
Fixpoint check_loop (allWords : list str) (position : Z) (i : nat)
    (spokenWords : list str) (errors : list RealtimeError.t)
    (processedWords : Z) : list RealtimeError.t * Z :=
  match spokenWords with
  | [] => (errors, processedWords)
  | spokenWord :: rest =>
      let expectedPosition := (position + Z.of_nat i)%Z in
      if (expectedPosition <? Z.of_nat (length allWords))%Z then
        let expectedWord := js_index allWords expectedPosition in
        (* an [undefined] word is normalized to the empty string *)
        let similarity := calculateSimilarity spokenWord (default [] expectedWord) in
        if Qlt_bool similarity (8 # 10) then
          check_loop allWords position (S i) rest
            (errors ++ [RealtimeError.mk expectedPosition spokenWord expectedWord
                          incorrect (Math_round (similarity * 100))])
            processedWords
        else
          check_loop allWords position (S i) rest errors (processedWords + 1)%Z
      else
        check_loop allWords position (S i) rest
          (errors ++ [RealtimeError.mk expectedPosition spokenWord (Some []) extra 0%Z])
          processedWords
  end.

Definition checkCurrentWords (spoken fullText : str) (position : Z) : result :=
  if negb (truthy spoken) || negb (truthy fullText) then mkResult [] position
  else
    let spokenNormalized := normalizeArabicText spoken in
    let spokenWords := words spokenNormalized in
    let fullNormalized := normalizeArabicText fullText in
    let allWords := words fullNormalized in
    if (Z.of_nat (length allWords) <=? position)%Z then mkResult [] position
    else
      let '(errors, processedWords) :=
        check_loop allWords position 0 spokenWords [] 0%Z in
      let newPosition := (position + processedWords)%Z in
      mkResult errors newPosition.

End CheckRecitation.

(** ** Full-session comparator: the [final-analysis] route *)

Module ErrorDetail.
Record t := mk {
  type : error_type;
  spoken : option str;
  correct : option str;
  missing : option str;
  extra : option str;
  similarity : option Z
}.
End ErrorDetail.

(** A JavaScript number where a division by zero may have happened. *)
Inductive number := Finite (q : Q) | Infinity | NaN.

(** [a / b] on two array lengths *)
Definition length_div (a b : nat) : number :=
  match b, a with
  | O, O => NaN
  | O, S _ => Infinity
  | S _, _ => Finite (ratio a b)
  end.

(** [x * k] and [x / k] for a positive literal [k] *)
Definition number_scale (f : Q → Q) (x : number) : number :=
  match x with
  | Finite q => Finite (f q)
  | Infinity => Infinity
  | NaN => NaN
  end.

(** [Math.min(x, k)] for a literal [k] *)
Definition Math_min (x : number) (k : Q) : number :=
  match x with
  | Finite q => Finite (if Qle_bool q k then q else k)
  | Infinity => Finite k
  | NaN => NaN
  end.

(** a string or [undefined] used as a condition *)
Definition truthy_opt (w : option str) : bool :=
  match w with Some s => truthy s | None => false end.

Module FinalAnalysis.

(** The inner [for] loop of [calculateTextSimilarity]: the first index
    [j] from the given one on that is not used and holds [word1]. *)
Fixpoint first_match (word1 : str) (used : gset nat) (j : nat)
    (words2 : list str) : option nat :=
  match words2 with
  | [] => None
  | w :: rest =>
      if bool_decide (j ∉ used) && bool_decide (word1 = w) then Some j
      else first_match word1 used (S j) rest
  end.

(** The outer loop, on the pair of [matches] and [used]. *)
Fixpoint match_loop (words1 words2 : list str) (matches : nat)
    (used : gset nat) : nat :=
  match words1 with
  | [] => matches
  | word1 :: rest =>
      match first_match word1 used 0 words2 with
      | Some j => match_loop rest words2 (S matches) ({[ j ]} ∪ used)
      | None => match_loop rest words2 matches used
      end
  end.

Definition calculateTextSimilarity (text1 text2 : str) : Q :=
  let norm1 := normalizeArabicText text1 in
  let norm2 := normalizeArabicText text2 in
  if bool_decide (norm1 = norm2) then 1%Q
  else
    let words1 := split_ws norm1 in
    let words2 := split_ws norm2 in
    let maxLength := Nat.max (length words1) (length words2) in
    if (maxLength =? 0)%nat then 1%Q
    else ratio (match_loop words1 words2 0 ∅) maxLength.

(** The [for] loop of [compareTexts] with [n] rounds to go from index [i]. *)
Fixpoint compare_loop (spokenWords originalWords : list str) (n i : nat)
    (differences : list ErrorDetail.t) : list ErrorDetail.t :=
  match n with
  | O => differences
  | S n' =>
      let spokenWord := spokenWords !! i in
      let originalWord := originalWords !! i in
      let differences :=
        if truthy_opt spokenWord && truthy_opt originalWord then
          if bool_decide (spokenWord ≠ originalWord) then
            differences ++
              [ErrorDetail.mk incorrect spokenWord originalWord None None
                 (Some (Math_round
                    (calculateTextSimilarity (default [] spokenWord)
                       (default [] originalWord) * 100)))]
          else differences
        else if truthy_opt spokenWord && negb (truthy_opt originalWord) then
          differences ++ [ErrorDetail.mk extra None None None spokenWord None]
        else if negb (truthy_opt spokenWord) && truthy_opt originalWord then
          differences ++ [ErrorDetail.mk missing None None originalWord None None]
        else differences in
      compare_loop spokenWords originalWords n' (S i) differences
  end.

Definition compareTexts (spoken original : str) : list ErrorDetail.t * Q :=
  let spokenNormalized := normalizeArabicText spoken in
  let originalNormalized := normalizeArabicText original in
  let similarity := calculateTextSimilarity spokenNormalized originalNormalized in
  let spokenWords := words spokenNormalized in
  let originalWords := words originalNormalized in
  let maxLength := Nat.max (length spokenWords) (length originalWords) in
  (compare_loop spokenWords originalWords maxLength 0 [], similarity).

Record errors_by_type_t := mkByType {
  incorrect_errors : list ErrorDetail.t;
  missing_errors : list ErrorDetail.t;
  extra_errors : list ErrorDetail.t
}.

Record error_counts_t := mkCounts {
  incorrect_count : nat;
  missing_count : nat;
  extra_count : nat
}.

(** The report.  The suggestions, the time stamp and the constant
    [processing_info] come from outside the comparison and are left out. *)
Record analysis := mkAnalysis {
  overall_accuracy : Q;
  completion_percentage : number;
  total_words : nat;
  spoken_words : nat;
  total_errors : nat;
  errors_by_type : errors_by_type_t;
  error_counts : error_counts_t
}.

Inductive response :=
  | error_response (status : nat)
  | json_response (a : analysis).

Definition has_type (ty : error_type) (d : ErrorDetail.t) : Prop :=
  ErrorDetail.type d = ty.

Global Instance has_type_dec ty d : Decision (has_type ty d).
Proof. unfold has_type; apply _. Defined.

(** [POST]; the request body holds [transcript], [fullText], [surahData]
    and [realtimeErrors], of which the handler reads the first two. *)
Definition POST (transcript fullText : str)
    (realtimeErrors : list RealtimeError.t) : response :=
  if negb (truthy transcript) || negb (truthy fullText) then error_response 400
  else
    let '(differences, similarity) := compareTexts transcript fullText in
    let totalWords := length (words (normalizeArabicText fullText)) in
    let spokenWords := length (words (normalizeArabicText transcript)) in
    let errorsByType :=
      mkByType (filter (has_type incorrect) differences)
               (filter (has_type missing) differences)
               (filter (has_type extra) differences) in
    let errorCounts :=
      mkCounts (length (incorrect_errors errorsByType))
               (length (missing_errors errorsByType))
               (length (extra_errors errorsByType)) in
    let accuracyPercentage := (similarity * 100)%Q in
    let completionPercentage :=
      Math_min (number_scale (λ q, q * 100)%Q (length_div spokenWords totalWords)) 100 in
    json_response
      (mkAnalysis
         (inject_Z (Math_round (accuracyPercentage * 10)) / 10)%Q
         (number_scale (λ q, inject_Z (Math_round (q * 10)) / 10)%Q completionPercentage)
         totalWords spokenWords (length differences) errorsByType errorCounts).

End FinalAnalysis.

(** ** Suggestions: [generateImprovementSuggestions] of the [final-analysis] route *)

(** The code units of an ASCII literal. *)
Definition codes (s : string) : list N :=
  map Ascii.N_of_ascii (String.list_ascii_of_string s).

Module Suggestions.

(** [text.split("\n")] *)
Fixpoint split_lines (text : str) : list str :=
  match text with
  | [] => [[]]
  | c :: text' =>
      if c =? 10 then [] :: split_lines text'
      else
        match split_lines text' with
        | l :: ls => (c :: l) :: ls
        | [] => [[c]]
        end
  end.

(** [line.includes(c)] for a string [c] of one code unit *)
Definition includes (c : N) (line : str) : bool := existsb (N.eqb c) line.

(** [line.match(/^\d+\./)] as a condition: digits, one at least, and a
    dot at the start of the line. *)
Definition numbered (line : str) : bool :=
  match line with
  | d :: rest =>
      is_digit d
      && match skip is_digit rest with
         | c :: _ => c =? 0x2E
         | [] => false
         end
  | [] => false
  end.

(** [line.replace(/^[•\-\d.]\s*/, "")]: one bullet, dash, digit or dot at
    the start goes, with the whitespace after it. *)
Definition strip_marker (line : str) : str :=
  match line with
  | c :: rest =>
      if (c =? 0x2022) || (c =? 0x2D) || is_digit c || (c =? 0x2E)
      then skip is_space rest
      else line
  | [] => []
  end.

Definition is_candidate (line : str) : bool :=
  truthy (trim line)
  && (includes 0x2022 line || includes 0x2D line || numbered line).

(** The list returned when the reply holds no suggestion. *)
Definition fallback_suggestions : list str :=
  [ 0xD83C :: 0xDFAF :: codes " Focus on pronunciation accuracy - review the correct pronunciation of challenging words";
    0xD83D :: 0xDCDA :: codes " Practice with Tajweed rules for better recitation flow";
    0xD83D :: 0xDD04 :: codes " Try reciting slower to avoid missing or adding extra words";
    0xD83C :: 0xDFA7 :: codes " Listen to professional recitations to improve your rhythm and pronunciation";
    0xD83D :: 0xDD4C :: codes " Consider practicing with a Quran teacher for personalized guidance" ].

(** The list returned when the generation fails. *)
Definition error_suggestions : list str :=
  [ 0xD83C :: 0xDFAF :: codes " Focus on pronunciation accuracy and take your time with each word";
    0xD83D :: 0xDCDA :: codes " Review Tajweed rules to improve your recitation technique";
    0xD83D :: 0xDD04 :: codes " Practice regularly and recite slowly for better accuracy";
    0xD83C :: 0xDFA7 :: codes " Listen to professional recitations for reference";
    0xD83C :: 0xDF1F :: codes " Keep practicing - improvement comes with consistent effort!" ].

(** [generateImprovementSuggestions]; [reply] is the text that
    [generateText] answers, or [None] when the call throws.  The
    differences and the accuracy go into the prompt only. *)
Definition generateImprovementSuggestions (reply : option str) : list str :=
  match reply with
  | None => error_suggestions
  | Some text =>
      let suggestions :=
        filter (λ suggestion, (10 < length suggestion)%nat)
          (map (λ line, trim (strip_marker line))
             (filter (λ line, is_candidate line = true) (split_lines text))) in
      if (length suggestions =? 0)%nat then fallback_suggestions
      else take 5 suggestions
  end.

End Suggestions.

(** ** The recitation page *)

Module RecitePage.

(** [normalizeArabicText] of the page: one class for the diacritics
    U+064B..U+0652, the superscript alif and the tatweel, and the other
    steps as in the routes. *)
Definition normalizeArabicText (text : str) : str :=
  if negb (truthy text) then []
  else
    let s :=
      replace_class (λ c, in_range 0x064B 0x0652 c || one_of [0x0670; 0x0640] c) []
        text in
    let s := replace_class (one_of [0x0623; 0x0625; 0x0622; 0x0671]) [0x0627] s in
    let s := replace_class (one_of [0x0649; 0x0626]) [0x064A] s in
    let s := replace_class (one_of [0x0629]) [0x0647] s in
    let s := replace_verse_markers (S (length s)) s in
    let s := replace_runs is_digit [] s in
    let s := replace_runs is_space [32] s in
    trim s.

Fixpoint uint_codes (u : Decimal.uint) : str :=
  match u with
  | Decimal.Nil => []
  | Decimal.D0 u => 0x30 :: uint_codes u
  | Decimal.D1 u => 0x31 :: uint_codes u
  | Decimal.D2 u => 0x32 :: uint_codes u
  | Decimal.D3 u => 0x33 :: uint_codes u
  | Decimal.D4 u => 0x34 :: uint_codes u
  | Decimal.D5 u => 0x35 :: uint_codes u
  | Decimal.D6 u => 0x36 :: uint_codes u
  | Decimal.D7 u => 0x37 :: uint_codes u
  | Decimal.D8 u => 0x38 :: uint_codes u
  | Decimal.D9 u => 0x39 :: uint_codes u
  end.

(** A natural number in a template literal: its decimal digits *)
Definition decimal (n : nat) : str := uint_codes (Nat.to_uint n).

(** The [forEach] of [fetchSurahData] from the ayah of index [index] on:
    [text += ayah.text + ` (${index + 1}) `] *)
Fixpoint build_text (index : nat) (ayahs : list str) (text : str) : str :=
  match ayahs with
  | [] => text
  | ayah :: rest =>
      build_text (S index) rest
        (text ++ ayah ++ [32; 0x28] ++ decimal (index + 1) ++ [0x29; 32])
  end.

(** What [fetchSurahData] stores: [setFullText(text.trim())] and
    [setTotalWords(words.length)] *)
Definition fullText_of (ayahs : list str) : str := trim (build_text 0 ayahs []).

Definition totalWords_of (ayahs : list str) : nat :=
  length (words (normalizeArabicText (build_text 0 ayahs []))).

(** The part of the state of the page that a finalized chunk changes. *)
Record state := mkState {
  realtimeErrors : list RealtimeError.t;
  currentPosition : Z;
  progress : Q
}.

(** What [startRecording] sets. *)
Definition startRecording : state := mkState [] 0 0.

(** [processRealtimeText] on the state that it reads: the trimmed chunk
    and the cursor go to the [check-recitation] route, whose answer is
    [checkCurrentWords] of them; the errors of the answer are appended and
    its cursor is taken over. *)
Definition processRealtimeText (fullText : str) (totalWords : nat)
    (st : state) (spokenText : str) : state :=
  if negb (truthy fullText) || negb (truthy (trim spokenText)) then st
  else
    let result :=
      CheckRecitation.checkCurrentWords (trim spokenText) fullText
        (currentPosition st) in
    let errors :=
      if (0 <? length (CheckRecitation.errors result))%nat
      then realtimeErrors st ++ CheckRecitation.errors result
      else realtimeErrors st in
    let progressPercent :=
      if (0 <? totalWords)%nat
      then (inject_Z (CheckRecitation.newPosition result)
            / inject_Z (Z.of_nat totalWords) * 100)%Q
      else 0%Q in
    mkState errors (CheckRecitation.newPosition result)
      (if Qle_bool progressPercent 100 then progressPercent else 100%Q).

End RecitePage.

(** * The vocabulary of the statements *)

(** ** Example texts *)

Definition word_ba : str := [0x628].
Definition word_alif : str := [0x627].
Definition word_dal : str := [0x62F].
Definition word_alif_ba : str := [0x627; 0x628].
Definition word_ba_alif : str := [0x628; 0x627].

Definition word_bsm : str := [0x628; 0x633; 0x645].
Definition word_bsn : str := [0x628; 0x633; 0x646].

(** The reference text of a surah as the recitation page builds it: the
    text of each ayah followed by its number in parentheses, here one
    ayah of the one word "ا". *)
Definition marked_text : str := [0x627; 32; 0x28; 0x31; 0x29; 32].

(** ** Normalized text *)

(** The steps of [normalizeArabicText] that work on single code units. *)
Definition letters (s : str) : str :=
  replace_class is_digit []
    (replace_class (one_of [0x0629]) [0x0647]
      (replace_class (one_of [0x0649; 0x0626]) [0x064A]
        (replace_class (one_of [0x0623; 0x0625; 0x0622; 0x0671]) [0x0627]
          (replace_class (one_of [0x0640]) []
            (replace_class (in_range 0x06D6 0x06ED) []
              (replace_class (one_of [0x0670]) []
                (replace_class (in_range 0x0656 0x065F) []
                  (replace_class (in_range 0x0653 0x0655) []
                    (replace_class (in_range 0x064B 0x0652) [] s))))))))).

(** A code unit that the letter steps leave alone. *)
Definition plain (c : N) : Prop := letters [c] = [c].

(** Whitespace after the collapsing step: single spaces (U+0020), none
    next to another. *)
Fixpoint collapsed (s : str) : Prop :=
  match s with
  | [] => True
  | c :: s' =>
      (is_space c = true →
         c = 32 ∧ match s' with d :: _ => is_space d = false | [] => True end)
      ∧ collapsed s'
  end.

(** What [normalizeArabicText] returns: plain code units, collapsed and
    trimmed whitespace. *)
Record normal (s : str) : Prop := {
  normal_plain : Forall plain s;
  normal_collapsed : collapsed s;
  normal_trimmed : trim s = s
}.

Definition no_space (w : str) : Prop := Forall (λ c, is_space c = false) w.

(** ** Calls of the aligner *)

(** The reference words of a call, as the aligner computes them. *)
Definition referenceWords (fullText : str) : list str :=
  words (normalizeArabicText fullText).

(** The spoken tokens of a chunk. *)
Definition spokenTokens (spoken : str) : list str :=
  words (normalizeArabicText spoken).

(** The similarity of the token [t.2] at index [t.1] of a chunk to the
    reference word it is set against. *)
Definition token_similarity (allWords : list str) (position : Z)
    (t : nat * str) : Q :=
  CheckRecitation.calculateSimilarity t.2
    (default [] (js_index allWords (position + Z.of_nat t.1))).

Definition mismatch (allWords : list str) (position : Z) (t : nat * str) : Prop :=
  Qlt_bool (token_similarity allWords position t) (8 # 10) = true.

Global Instance mismatch_dec allWords position t :
  Decision (mismatch allWords position t).
Proof. unfold mismatch; apply _. Defined.

Definition incorrect_event (allWords : list str) (position : Z)
    (t : nat * str) : RealtimeError.t :=
  RealtimeError.mk (position + Z.of_nat t.1) t.2
    (js_index allWords (position + Z.of_nat t.1)) incorrect
    (Math_round (token_similarity allWords position t * 100)).

(** The tokens with their indices, from index [i] on. *)
Definition indexed (i : nat) (spokenWords : list str) : list (nat * str) :=
  zip (seq i (length spokenWords)) spokenWords.

(** ** Reports *)

Definition zero_or_absent (d : ErrorDetail.t) : Prop :=
  ErrorDetail.similarity d = None ∨ ErrorDetail.similarity d = Some 0%Z.

Definition number_is (x : number) (q : Q) : Prop :=
  match x with Finite p => p == q | _ => False end.

Definition completion_of (r : FinalAnalysis.response) : number :=
  match r with
  | FinalAnalysis.json_response a => FinalAnalysis.completion_percentage a
  | FinalAnalysis.error_response _ => NaN
  end.

Definition total_words_of (r : FinalAnalysis.response) : option nat :=
  match r with
  | FinalAnalysis.json_response a => Some (FinalAnalysis.total_words a)
  | FinalAnalysis.error_response _ => None
  end.

Definition report_events (r : FinalAnalysis.response) : list ErrorDetail.t :=
  match r with
  | FinalAnalysis.json_response a =>
      FinalAnalysis.incorrect_errors (FinalAnalysis.errors_by_type a)
        ++ FinalAnalysis.missing_errors (FinalAnalysis.errors_by_type a)
        ++ FinalAnalysis.extra_errors (FinalAnalysis.errors_by_type a)
  | FinalAnalysis.error_response _ => []
  end.

(** A realtime event and a report entry that tell of the same deviation:
    the same type and the same words (the position and the similarity
    number, which the report entry need not hold, are not compared). *)
Definition same_event (e : RealtimeError.t) (d : ErrorDetail.t) : Prop :=
  RealtimeError.type e = ErrorDetail.type d ∧
  match RealtimeError.type e with
  | incorrect =>
      ErrorDetail.spoken d = Some (RealtimeError.spoken e)
      ∧ ErrorDetail.correct d = RealtimeError.expected e
  | extra => ErrorDetail.extra d = Some (RealtimeError.spoken e)
  | missing => ErrorDetail.missing d = RealtimeError.expected e
  end.

Global Instance same_event_dec e d : Decision (same_event e d).
Proof. unfold same_event; destruct (RealtimeError.type e); apply _. Defined.

(** A session on the reference "ا ب ج": the chunk "د", then the chunk "ب"
    at the cursor that the first call returned; the transcript is "د ب". *)
Definition session_text : str := [0x627; 32; 0x628; 32; 0x62C].
Definition session_transcript : str := [0x62F; 32; 0x628].
Definition session_call1 : CheckRecitation.result :=
  CheckRecitation.checkCurrentWords word_dal session_text 0.
Definition session_call2 : CheckRecitation.result :=
  CheckRecitation.checkCurrentWords word_ba session_text
    (CheckRecitation.newPosition session_call1).
Definition session_errors : list RealtimeError.t :=
  CheckRecitation.errors session_call1 ++ CheckRecitation.errors session_call2.

(** ** Tokens *)

(** The code units that the normalizer deletes: the classes of its first
    six replacements. *)
Definition stripped (c : N) : bool :=
  in_range 0x064B 0x0652 c || in_range 0x0653 0x0655 c
  || in_range 0x0656 0x065F c || one_of [0x0670] c
  || in_range 0x06D6 0x06ED c || one_of [0x0640] c.

(** The letter variants that the normalizer folds: the classes of the
    three replacements that follow. *)
Definition folded (c : N) : bool :=
  one_of [0x0623; 0x0625; 0x0622; 0x0671] c || one_of [0x0649; 0x0626] c
  || one_of [0x0629] c.

(** [ws.join(" ")] *)
Fixpoint join_words (ws : list str) : str :=
  match ws with
  | [] => []
  | w :: rest =>
      match rest with
      | [] => w
      | _ :: _ => w ++ 32 :: join_words rest
      end
  end.

(** The pieces of a string between its whitespace code units, every
    single one of them taken as a separator. *)
Fixpoint split_each (s : str) : list str :=
  match s with
  | [] => [[]]
  | c :: s' =>
      if is_space c then [] :: split_each s'
      else
        match split_each s' with
        | w :: ws => (c :: w) :: ws
        | [] => [[c]]
        end
  end.

Definition nonempty (ws : list str) : list str := filter (λ w, w ≠ []) ws.

(** Two lists of pieces with the same first piece and, from there on, the
    same pieces that are not empty. *)
Definition same_pieces (l l' : list str) : Prop :=
  ∃ w t t', l = w :: t ∧ l' = w :: t' ∧ nonempty t = nonempty t'.

(** A code unit put in front of the first piece. *)
Definition push (c : N) (l : list str) : list str :=
  match l with
  | w :: ws => (c :: w) :: ws
  | [] => [[c]]
  end.

(** ** Events of a call *)

Definition extra_event (position : Z) (t : nat * str) : RealtimeError.t :=
  RealtimeError.mk (position + Z.of_nat t.1) t.2 (Some []) extra 0.

(** The token at index [t.1] of the chunk has a reference word to be set
    against. *)
Definition in_bounds (allWords : list str) (position : Z) (t : nat * str) : Prop :=
  (position + Z.of_nat t.1 < Z.of_nat (length allWords))%Z.

Global Instance in_bounds_dec allWords position t :
  Decision (in_bounds allWords position t).
Proof. unfold in_bounds; apply _. Defined.

(** The event of a token, if it has one. *)
Definition token_event (allWords : list str) (position : Z)
    (t : nat * str) : option RealtimeError.t :=
  if decide (in_bounds allWords position t) then
    if decide (mismatch allWords position t)
    then Some (incorrect_event allWords position t)
    else None
  else Some (extra_event position t).

(** A token that moves the cursor: in bounds and similar enough. *)
Definition matched (allWords : list str) (position : Z) (t : nat * str) : Prop :=
  in_bounds allWords position t ∧ ¬ mismatch allWords position t.

Global Instance matched_dec allWords position t :
  Decision (matched allWords position t).
Proof. unfold matched; apply _. Defined.

(** ** Word sequences as multisets *)

(** The words of a sequence, each as often as it occurs. *)
Definition bag (ws : list str) : gmultiset (list N) := list_to_set_disj ws.

(** The words of [words2] from index [j] on whose index is not used. *)
Fixpoint unused_from (used : gset nat) (j : nat) (words2 : list str) : list str :=
  match words2 with
  | [] => []
  | w :: rest =>
      if decide (j ∈ used) then unused_from used (S j) rest
      else w :: unused_from used (S j) rest
  end.

(** ** Differences of two word sequences *)

Definition incorrect_detail (s o : str) : ErrorDetail.t :=
  ErrorDetail.mk incorrect (Some s) (Some o) None None (Some 0%Z).

Definition extra_detail (w : str) : ErrorDetail.t :=
  ErrorDetail.mk extra None None None (Some w) None.

Definition missing_detail (w : str) : ErrorDetail.t :=
  ErrorDetail.mk missing None None (Some w) None None.

(** The two sequences side by side: a pair of different words is
    [incorrect], what is left of the spoken words is [extra], what is
    left of the reference words is [missing]. *)
Fixpoint diff_words (spokenWords originalWords : list str) : list ErrorDetail.t :=
  match spokenWords, originalWords with
  | s :: spokenWords', o :: originalWords' =>
      (if decide (s = o) then [] else [incorrect_detail s o])
        ++ diff_words spokenWords' originalWords'
  | _ :: _, [] => map extra_detail spokenWords
  | [], _ => map missing_detail originalWords
  end.

Definition count_type (ty : error_type) (l : list ErrorDetail.t) : nat :=
  length (filter (FinalAnalysis.has_type ty) l).

(** ** Suggestions *)

(** What every suggestion has: more than ten code units, and no
    whitespace at its start or end. *)
Definition well_formed (suggestion : str) : Prop :=
  (10 < length suggestion)%nat ∧ trim suggestion = suggestion.

(** ** The recitation page *)

(** The steps of the normalizer of the page that work on single code
    units. *)
Definition letters_page (s : str) : str :=
  replace_class is_digit []
    (replace_class (one_of [0x0629]) [0x0647]
      (replace_class (one_of [0x0649; 0x0626]) [0x064A]
        (replace_class (one_of [0x0623; 0x0625; 0x0622; 0x0671]) [0x0627]
          (replace_class
             (λ c, in_range 0x064B 0x0652 c || one_of [0x0670; 0x0640] c) [] s)))).

(** The word that a verse marker leaves: its two parentheses. *)
Definition marker_word : str := [0x28; 0x29].

(** The state of the page is sound for a reference: the cursor within
    the reference, the progress a percentage, and no [missing] event. *)
Definition sound (fullText : str) (st : RecitePage.state) : Prop :=
  (0 ≤ RecitePage.currentPosition st ≤ Z.of_nat (length (referenceWords fullText)))%Z
  ∧ (0 <= RecitePage.progress st <= 100)%Q
  ∧ Forall (λ e, RealtimeError.type e ≠ missing) (RecitePage.realtimeErrors st).

(** The words that a normalizer with the code-unit steps [L] finds in a
    text. *)
Definition words_by (L : str → str) (s : str) : list str :=
  nonempty (map L (split_each s)).

(** A text that is empty or ends with whitespace. *)
Definition closed (s : str) : Prop :=
  s = [] ∨ ∃ s' c, s = s' ++ [c] ∧ is_space c = true.

(** ** The similarity number of an event *)

(** An exact value that lies half-way between two integers.  The product
    of doubles that the source rounds can fall just below such a value,
    and [Math.round] then gives one less than [Math_round] gives of the
    exact product; off these values the two agree. *)
Definition half_way (x : Q) : Prop := x == inject_Z (Qfloor x) + (1 # 2).

Global Instance half_way_dec x : Decision (half_way x).
Proof. unfold half_way; apply Qeq_dec. Defined.

(** What an event tells apart from its similarity number. *)
Definition deviation (e : RealtimeError.t) : Z * str * option str * error_type :=
  (RealtimeError.position e, RealtimeError.spoken e,
   RealtimeError.expected e, RealtimeError.type e).

(** The number of an [incorrect] event for the token [t] is read off the
    exact percentage: the token has no such event, or its percentage is
    not half-way. *)
Definition exact_number (allWords : list str) (position : Z)
    (t : nat * str) : Prop :=
  in_bounds allWords position t → mismatch allWords position t →
  ¬ half_way (token_similarity allWords position t * 100).

(** ** A cursor left behind *)

(** The reference "ا ب ج د", the chunk "س ب" and the word "ج". *)
Definition word_sin : str := [0x633].
Definition word_jim : str := [0x62C].
Definition stalled_text : str := [0x627; 32; 0x628; 32; 0x62C; 32; 0x62F].
Definition stalled_chunk : str := [0x633; 32; 0x628].

(** ** The categories of a report *)

Definition category (ty : error_type) (b : FinalAnalysis.errors_by_type_t) :
    list ErrorDetail.t :=
  match ty with
  | incorrect => FinalAnalysis.incorrect_errors b
  | missing => FinalAnalysis.missing_errors b
  | extra => FinalAnalysis.extra_errors b
  end.

(** * Properties *)

(** ** The string primitives *)

Section Primitives.
Context (p : N → bool).

Lemma replace_class_app r s t :
  replace_class p r (s ++ t) = replace_class p r s ++ replace_class p r t.
Proof. apply flat_map_app. Qed.

Lemma replace_class_cons r c s :
  replace_class p r (c :: s) = (if p c then r else [c]) ++ replace_class p r s.
Proof. reflexivity. Qed.

Lemma replace_class_single r c :
  replace_class p r [c] = if p c then r else [c].
Proof. unfold replace_class; simpl; apply app_nil_r. Qed.

(** Replacing runs by the empty string deletes code unit by code unit. *)
Lemma replace_runs_empty s : replace_runs p [] s = replace_class p [] s.
Proof.
  induction s as [|c s IH]; [reflexivity|].
  rewrite replace_class_cons, <- IH; simpl.
  destruct (p c); [|reflexivity].
  destruct s as [|c' s]; [reflexivity|].
  destruct (p c'); reflexivity.
Qed.

Lemma Forall_replace_runs (P : N → Prop) r s :
  Forall P r → Forall P s → Forall P (replace_runs p r s).
Proof.
  intros Hr; induction 1 as [|c s Hc Hs IH]; [constructor|simpl].
  destruct (p c); [|by constructor].
  destruct s as [|c' s]; [exact Hr|].
  destruct (p c'); [exact IH | by apply Forall_app].
Qed.

Lemma Forall_skip (P : N → Prop) s : Forall P s → Forall P (skip p s).
Proof.
  induction 1 as [|c s Hc Hs IH]; [constructor|simpl].
  destruct (p c); [exact IH | by constructor].
Qed.

End Primitives.

Lemma Forall_trim_end (P : N → Prop) s : Forall P s → Forall P (trim_end s).
Proof.
  induction 1 as [|c s Hc Hs IH]; [constructor|simpl].
  destruct (trim_end s) as [|d r].
  - destruct (is_space c); by repeat constructor.
  - by constructor.
Qed.

Lemma Forall_trim (P : N → Prop) s : Forall P s → Forall P (trim s).
Proof. intros; by apply Forall_trim_end, Forall_skip. Qed.

(** The pattern [$$\s*\d+\s*$$] asks for a digit after the end of the
    input: it matches nowhere, and the replacement changes nothing. *)
Lemma match_verse_marker_none s : match_verse_marker s = None.
Proof. by destruct s. Qed.

Lemma replace_verse_markers_id fuel s : replace_verse_markers fuel s = s.
Proof.
  revert s; induction fuel as [|fuel IH]; intros s; [reflexivity|simpl].
  rewrite match_verse_marker_none.
  destruct s; [reflexivity | by rewrite IH].
Qed.

(** ** The normalizer *)

Lemma normalizeArabicText_letters s :
  normalizeArabicText s = trim (replace_runs is_space [32] (letters s)).
Proof.
  destruct s as [|c s]; [reflexivity|].
  unfold normalizeArabicText, letters.
  change (negb (truthy (c :: s))) with false; cbv iota zeta.
  by rewrite replace_verse_markers_id, replace_runs_empty.
Qed.

Lemma letters_app s t : letters (s ++ t) = letters s ++ letters t.
Proof. unfold letters; by rewrite !replace_class_app. Qed.

Lemma letters_cons c s : letters (c :: s) = letters [c] ++ letters s.
Proof. apply (letters_app [c]). Qed.

Lemma letters_single c :
  letters [c] = [] ∨ ∃ d, letters [c] = [d] ∧ plain d.
Proof.
  unfold plain, letters.
  repeat first
    [ rewrite (replace_class_single _ _ c)
    | match goal with
      | |- context [if ?b then _ else _] =>
          lazymatch b with
          | context [c] => let E := fresh "E" in destruct b eqn:E
          end
      end ];
  try (left; reflexivity);
  right; eexists; (split; [reflexivity|]);
  try reflexivity;
  repeat (rewrite replace_class_single;
          match goal with
          | E : ?b = false |- context [if ?b then _ else _] => rewrite E
          end);
  reflexivity.
Qed.

Lemma letters_plain s : Forall plain (letters s).
Proof.
  induction s as [|c s IH]; [constructor|].
  rewrite letters_cons; apply Forall_app; split; [|exact IH].
  destruct (letters_single c) as [->|(d & -> & Hd)]; by repeat constructor.
Qed.

Lemma letters_fixed s : Forall plain s → letters s = s.
Proof.
  induction 1 as [|c s Hc _ IH]; [reflexivity|].
  by rewrite letters_cons, Hc, IH.
Qed.

Lemma plain_space : plain 32.
Proof. reflexivity. Qed.

Lemma plain_not_digit c : plain c → is_digit c = false.
Proof.
  unfold plain, letters; intros H.
  destruct (is_digit c) eqn:E; [|reflexivity].
  set (t := replace_class (one_of [0x0629]) _ _) in H.
  assert (Ht : Forall (λ d, is_digit d = false) (replace_class is_digit [] t)).
  { clear; induction t as [|d t IH]; [constructor|].
    rewrite replace_class_cons; apply Forall_app; split; [|exact IH].
    destruct (is_digit d) eqn:E; by repeat constructor. }
  rewrite H in Ht; inversion Ht; congruence.
Qed.

Lemma replace_runs_cons2 p r c d s :
  replace_runs p r (c :: d :: s) =
  if p c then
    if p d then replace_runs p r (d :: s) else r ++ replace_runs p r (d :: s)
  else c :: replace_runs p r (d :: s).
Proof. reflexivity. Qed.

Lemma replace_runs_head p r d s :
  p d = false → replace_runs p r (d :: s) = d :: replace_runs p r s.
Proof. intros E; simpl; by rewrite E. Qed.

Lemma collapsed_replace_runs s : collapsed (replace_runs is_space [32] s).
Proof.
  induction s as [|c [|d s] IH].
  - exact I.
  - simpl; destruct (is_space c) eqn:Ec; simpl; repeat split; congruence.
  - rewrite replace_runs_cons2.
    destruct (is_space c) eqn:Ec; [destruct (is_space d) eqn:Ed|].
    + exact IH.
    + split; [|exact IH]. intros _; split; [reflexivity|].
      by rewrite (replace_runs_head _ _ _ _ Ed).
    + split; [congruence|exact IH].
Qed.

Lemma collapsed_fixed s : collapsed s → replace_runs is_space [32] s = s.
Proof.
  induction s as [|c [|d s] IH]; [reflexivity| |]; intros [Hc Hs].
  - simpl; destruct (is_space c) eqn:Ec; [|reflexivity].
    by destruct (Hc eq_refl) as [-> _].
  - rewrite replace_runs_cons2, (IH Hs).
    destruct (is_space c) eqn:Ec; [|reflexivity].
    destruct (Hc eq_refl) as [-> ->]; reflexivity.
Qed.

Lemma collapsed_skip s : collapsed s → collapsed (skip is_space s).
Proof.
  induction s as [|c s IH]; [done|]; intros H; simpl skip.
  destruct (is_space c); [apply IH, H | exact H].
Qed.

Lemma trim_end_cons c s :
  trim_end (c :: s) =
  match trim_end s with
  | [] => if is_space c then [] else [c]
  | r => c :: r
  end.
Proof. reflexivity. Qed.

(** [trim_end] keeps the head of what it does not delete. *)
Lemma trim_end_head d r s : trim_end s = d :: r → ∃ s', s = d :: s'.
Proof.
  destruct s as [|c s]; [discriminate|]; rewrite trim_end_cons.
  destruct (trim_end s); [destruct (is_space c)|]; intros [= <- <-]; eauto.
Qed.

Lemma collapsed_trim_end s : collapsed s → collapsed (trim_end s).
Proof.
  induction s as [|c s IH]; [done|]; intros [Hc Hs].
  specialize (IH Hs); rewrite trim_end_cons.
  destruct (trim_end s) as [|d r] eqn:Er.
  - destruct (is_space c) eqn:Ec; [exact I|]; split; [congruence|exact I].
  - split; [|exact IH]. intros Hsp; destruct (Hc Hsp) as [-> Hd]; split; [done|].
    by destruct (trim_end_head _ _ _ Er) as [s' ->].
Qed.

(** A trimmed string is left alone by [trim]. *)
Lemma trim_end_idem s : trim_end (trim_end s) = trim_end s.
Proof.
  induction s as [|c s IH]; [reflexivity|]; rewrite trim_end_cons.
  destruct (trim_end s) as [|d r] eqn:Er.
  - destruct (is_space c) eqn:Ec; [reflexivity|]; simpl; by rewrite Ec.
  - by rewrite trim_end_cons, IH.
Qed.

Lemma skip_trim_end s :
  skip is_space (trim_end (skip is_space s)) = trim_end (skip is_space s).
Proof.
  induction s as [|c s IH]; [reflexivity|]; simpl skip at 2 3.
  destruct (is_space c) eqn:Ec; [exact IH|]; rewrite trim_end_cons.
  destruct (trim_end s); rewrite ?Ec; simpl; by rewrite Ec.
Qed.

Lemma trim_idem s : trim (trim s) = trim s.
Proof. unfold trim; by rewrite skip_trim_end, trim_end_idem. Qed.

Lemma normalizeArabicText_normal s : normal (normalizeArabicText s).
Proof.
  rewrite normalizeArabicText_letters; split.
  - apply Forall_trim, Forall_replace_runs;
      [repeat constructor; exact plain_space | apply letters_plain].
  - apply collapsed_trim_end, collapsed_skip, collapsed_replace_runs.
  - apply trim_idem.
Qed.

Lemma normal_fixed s : normal s → normalizeArabicText s = s.
Proof.
  intros [Hp Hc Ht].
  by rewrite normalizeArabicText_letters, letters_fixed, collapsed_fixed.
Qed.

(** C7: [normalizeArabicText] is idempotent: for every string [s],
    normalizing the normalized string gives the normalized string again. *)
Theorem normalizeArabicText_idempotent (s : str) :
  normalizeArabicText (normalizeArabicText s) = normalizeArabicText s.
Proof. apply normal_fixed, normalizeArabicText_normal. Qed.

(** No ASCII digit survives normalization. *)
Lemma normalizeArabicText_no_digit s :
  Forall (λ c, is_digit c = false) (normalizeArabicText s).
Proof.
  eapply Forall_impl; [apply normalizeArabicText_normal | apply plain_not_digit].
Qed.

(** C6: the normalizer removes the digit of a verse marker and leaves its
    parentheses, which then count as a word of the reference. *)
Theorem normalizeArabicText_keeps_parentheses :
  normalizeArabicText [32; 0x28; 0x31; 0x29; 32] = [0x28; 0x29]
  ∧ normalizeArabicText marked_text = [0x627; 32; 0x28; 0x29]
  ∧ words (normalizeArabicText marked_text) = [[0x627]; [0x28; 0x29]].
Proof. repeat split. Qed.

(** ** Words *)

(** The pieces of a split hold no whitespace, and hold code units of the
    string only. *)
Lemma split_ws_pieces (P : N → Prop) s :
  Forall P s → Forall (Forall (λ c, P c ∧ is_space c = false)) (split_ws s).
Proof.
  induction 1 as [|c s Hc Hs IH]; [by repeat constructor|].
  cbn [split_ws]; destruct (is_space c) eqn:Ec.
  - destruct s as [|d s]; [by repeat constructor|].
    destruct (is_space d); [exact IH | by constructor].
  - destruct (split_ws s) as [|w ws]; [by repeat constructor|].
    inversion IH; subst; by repeat constructor.
Qed.

Lemma words_pieces (P : N → Prop) s :
  Forall P s → Forall (Forall (λ c, P c ∧ is_space c = false)) (words s).
Proof.
  intros H; unfold words.
  apply Forall_forall; intros w Hw%list_elem_of_filter.
  pose proof (split_ws_pieces P s H) as Hall.
  rewrite Forall_forall in Hall; apply Hall, Hw.
Qed.

Lemma no_space_split w : no_space w → split_ws w = [w].
Proof.
  induction 1 as [|c s Hc _ IH]; [reflexivity|].
  cbn [split_ws]; by rewrite Hc, IH.
Qed.

Lemma no_space_collapsed w : no_space w → collapsed w.
Proof.
  induction 1 as [|c s Hc _ IH]; [exact I|].
  split; [congruence | exact IH].
Qed.

Lemma no_space_trim_end w : no_space w → trim_end w = w.
Proof.
  induction 1 as [|c s Hc _ IH]; [reflexivity|].
  rewrite trim_end_cons, IH, Hc; by destruct s.
Qed.

Lemma no_space_trim w : no_space w → trim w = w.
Proof.
  intros Hw; unfold trim.
  assert (skip is_space w = w) as ->
    by (destruct Hw as [|c s Hc _]; simpl; by rewrite ?Hc).
  by apply no_space_trim_end.
Qed.

(** A word of a normalized text is a normalized text itself. *)
Lemma words_normal s w : normal s → w ∈ words s → normal w ∧ split_ws w = [w].
Proof.
  intros [Hp _ _] Hin.
  pose proof (words_pieces _ _ Hp) as H.
  rewrite Forall_forall in H; specialize (H w Hin).
  assert (Hns : no_space w)
    by (eapply Forall_impl; [exact H | by intros c [_ ?]]).
  split; [split|].
  - eapply Forall_impl; [exact H | by intros c [? _]].
  - by apply no_space_collapsed.
  - by apply no_space_trim.
  - by apply no_space_split.
Qed.

(** ** The incremental aligner *)

Module AlignerFacts.
Import CheckRecitation.

Lemma words_empty : words (normalizeArabicText []) = [].
Proof. reflexivity. Qed.

Lemma truthy_false s : truthy s = false → s = [].
Proof. by destruct s. Qed.

(** [checkCurrentWords] with the pair that the loop returns taken apart
    by projections. *)
Lemma checkCurrentWords_unfold spoken fullText position :
  checkCurrentWords spoken fullText position =
  if negb (truthy spoken) || negb (truthy fullText) then mkResult [] position
  else if (Z.of_nat (length (referenceWords fullText)) <=? position)%Z
  then mkResult [] position
  else
    let r := check_loop (referenceWords fullText) position 0
               (spokenTokens spoken) [] 0%Z in
    mkResult r.1 (position + r.2)%Z.
Proof.
  unfold checkCurrentWords, referenceWords, spokenTokens.
  destruct (negb (truthy spoken) || negb (truthy fullText)); [reflexivity|].
  destruct (_ <=? _)%Z; [reflexivity|].
  by destruct (check_loop _ _ _ _ _ _).
Qed.

Section Loop.
Context (allWords : list str) (position : Z).

(** The loop only adds to [processedWords], and not more than there are
    reference positions left from [position + i] on. *)
Lemma check_loop_processed spokenWords i errors processedWords :
  let r := check_loop allWords position i spokenWords errors processedWords in
  (processedWords ≤ r.2 ≤
     processedWords + Z.max 0 (Z.of_nat (length allWords) - (position + Z.of_nat i)))%Z.
Proof.
  revert i errors processedWords.
  induction spokenWords as [|w rest IH]; intros i errors pw; simpl; [lia|].
  destruct (_ <? _)%Z eqn:E.
  - apply Z.ltb_lt in E.
    destruct (Qlt_bool _ _);
      [specialize (IH (S i) (errors ++ [RealtimeError.mk (position + Z.of_nat i) w
          (js_index allWords (position + Z.of_nat i)) incorrect
          (Math_round
             (calculateSimilarity w
                (default [] (js_index allWords (position + Z.of_nat i))) * 100))]) pw)
      | specialize (IH (S i) errors (pw + 1)%Z)];
      simpl in IH; lia.
  - apply Z.ltb_ge in E.
    specialize (IH (S i) (errors ++
      [RealtimeError.mk (position + Z.of_nat i) w (Some []) extra 0%Z]) pw).
    simpl in IH; lia.
Qed.

(** The loop pushes [incorrect] and [extra] events only. *)
Lemma check_loop_types (P : RealtimeError.t → Prop) spokenWords i errors processedWords :
  (∀ e, RealtimeError.type e = incorrect ∨ RealtimeError.type e = extra → P e) →
  Forall P errors →
  Forall P (check_loop allWords position i spokenWords errors processedWords).1.
Proof.
  intros HP; revert i errors processedWords.
  induction spokenWords as [|w rest IH]; intros i errors pw He; simpl; [exact He|].
  destruct (_ <? _)%Z; [destruct (Qlt_bool _ _)|]; apply IH; try exact He;
    (apply Forall_app; split; [exact He|]); repeat constructor; apply HP; simpl; auto.
Qed.

Lemma check_loop_in_bounds spokenWords i errors processedWords :
  (position + Z.of_nat i + Z.of_nat (length spokenWords) ≤ Z.of_nat (length allWords))%Z →
  check_loop allWords position i spokenWords errors processedWords =
  (errors ++ map (incorrect_event allWords position)
               (filter (mismatch allWords position) (indexed i spokenWords)),
   (processedWords +
      Z.of_nat (length (filter (λ t, ¬ mismatch allWords position t)
                          (indexed i spokenWords))))%Z).
Proof.
  revert i errors processedWords.
  induction spokenWords as [|w rest IH]; intros i errors pw Hb.
  - simpl; by rewrite app_nil_r, Z.add_0_r.
  - simpl in Hb; simpl check_loop.
    assert ((position + Z.of_nat i <? Z.of_nat (length allWords))%Z = true) as ->
      by (apply Z.ltb_lt; lia).
    change (indexed i (w :: rest)) with ((i, w) :: indexed (S i) rest).
    rewrite !filter_cons.
    change (calculateSimilarity w _) with (token_similarity allWords position (i, w)).
    destruct (Qlt_bool (token_similarity allWords position (i, w)) (8 # 10)) eqn:E.
    + rewrite IH by lia.
      rewrite decide_True by exact E.
      rewrite decide_False by (intros H; apply H, E).
      by rewrite <- app_assoc.
    + rewrite IH by lia.
      rewrite decide_False by (unfold mismatch; congruence).
      rewrite decide_True by (unfold mismatch; congruence).
      f_equal; simpl length; lia.
Qed.

End Loop.
(** C8: for a cursor within [0, len(referenceWords)] and any chunk, the
    new cursor is not below the old one and not beyond the reference
    length. *)
Theorem checkCurrentWords_cursor_bounds (spoken fullText : str) (position : Z) :
  (0 ≤ position ≤ Z.of_nat (length (referenceWords fullText)))%Z →
  (position ≤ newPosition (checkCurrentWords spoken fullText position)
     ≤ Z.of_nat (length (referenceWords fullText)))%Z.
Proof.
  intros Hpos; rewrite checkCurrentWords_unfold.
  destruct (_ || _); [simpl; lia|].
  destruct (_ <=? _)%Z; [simpl; lia|].
  pose proof (check_loop_processed (referenceWords fullText) position
                (spokenTokens spoken) 0 [] 0%Z) as H.
  simpl in *; lia.
Qed.

Lemma checkCurrentWords_cursor_bounds_witness :
  (0 ≤ 0 ≤ Z.of_nat (length (referenceWords word_alif_ba)))%Z ∧
  (0 ≤ newPosition (checkCurrentWords word_alif_ba word_alif_ba 0)
     ≤ Z.of_nat (length (referenceWords word_alif_ba)))%Z.
Proof.
  split; [vm_compute; split; discriminate|].
  apply (checkCurrentWords_cursor_bounds word_alif_ba word_alif_ba 0).
  vm_compute; split; discriminate.
Defined.

(** C10: every event that the incremental aligner returns has type
    [incorrect] or [extra], never [missing]; the full-session comparator
    does return [missing] events (here for a reference of two words of
    which one was spoken). *)
Theorem checkCurrentWords_never_missing :
  (∀ (spoken fullText : str) (position : Z),
     Forall (λ e, RealtimeError.type e = incorrect ∨ RealtimeError.type e = extra)
       (errors (checkCurrentWords spoken fullText position)))
  ∧ Exists (λ d, ErrorDetail.type d = missing)
      (FinalAnalysis.compareTexts word_alif [0x627; 32; 0x628]).1.
Proof.
  split.
  - intros spoken fullText position; rewrite checkCurrentWords_unfold.
    destruct (_ || _); [constructor|].
    destruct (_ <=? _)%Z; [constructor|].
    apply check_loop_types; [auto | constructor].
  - vm_compute. constructor. reflexivity.
Qed.

(** The tokens of a chunk are those that mismatch and those that do
    not. *)
Lemma mismatch_split (allWords : list str) (position : Z) (tokens : list (nat * str)) :
  (length (filter (mismatch allWords position) tokens)
   + length (filter (λ t, ¬ mismatch allWords position t) tokens))%nat
  = length tokens.
Proof.
  induction tokens as [|t tokens IH]; [reflexivity|].
  rewrite !filter_cons.
  destruct (decide (mismatch allWords position t)) as [H|H].
  - rewrite decide_False by tauto; simpl; lia.
  - rewrite decide_True by exact H; simpl; lia.
Qed.

Lemma length_indexed (i : nat) (spokenWords : list str) :
  length (indexed i spokenWords) = length spokenWords.
Proof. unfold indexed; rewrite length_zip, length_seq; lia. Qed.

(** C1: a token that is flagged [incorrect] is not counted in the new
    cursor.  In every call whose tokens all land in bounds each token
    with a similarity below 0.8 leaves one [incorrect] event, and the new
    cursor is the old one plus the number of tokens less the number of
    events, not the old one plus the number of tokens.  On the reference
    "ا ب ج د" the chunk "س ب" at cursor 0 is set against the positions 0
    and 1 and returns the cursor 1; the next chunk "ج" is then set against
    "ب" and flagged, the cursor staying at 1, where from the cursor 2 it
    matches. *)
Theorem checkCurrentWords_mismatch_not_counted :
  (∀ (spoken fullText : str) (position : Z),
     (0 ≤ position)%Z →
     (position + Z.of_nat (length (spokenTokens spoken))
        ≤ Z.of_nat (length (referenceWords fullText)))%Z →
     let r := checkCurrentWords spoken fullText position in
     length (errors r) =
       length (filter (mismatch (referenceWords fullText) position)
                 (indexed 0 (spokenTokens spoken)))
     ∧ Forall (λ e, RealtimeError.type e = incorrect) (errors r)
     ∧ newPosition r =
       (position + Z.of_nat (length (spokenTokens spoken))
        - Z.of_nat (length (errors r)))%Z)
  ∧ spokenTokens stalled_chunk = [word_sin; word_ba]
  ∧ referenceWords stalled_text = [word_alif; word_ba; word_jim; word_dal]
  ∧ checkCurrentWords stalled_chunk stalled_text 0 =
      mkResult [RealtimeError.mk 0 word_sin (Some word_alif) incorrect 0] 1
  ∧ checkCurrentWords word_jim stalled_text 1 =
      mkResult [RealtimeError.mk 1 word_jim (Some word_ba) incorrect 0] 1
  ∧ checkCurrentWords word_jim stalled_text 2 = mkResult [] 3.
Proof.
  split; [|vm_compute; repeat split].
  intros spoken fullText position Hpos Hb r; subst r.
  assert (Hnone : spokenTokens spoken = [] →
    length (errors (mkResult [] position)) =
      length (filter (mismatch (referenceWords fullText) position)
                (indexed 0 (spokenTokens spoken)))
    ∧ Forall (λ e, RealtimeError.type e = incorrect) (errors (mkResult [] position))
    ∧ newPosition (mkResult [] position) =
      (position + Z.of_nat (length (spokenTokens spoken))
       - Z.of_nat (length (errors (mkResult [] position))))%Z).
  { intros ->; simpl; repeat split; [constructor | lia]. }
  rewrite checkCurrentWords_unfold.
  destruct (negb (truthy spoken) || negb (truthy fullText)) eqn:E.
  - apply Hnone. apply orb_true_iff in E as [E|E]; apply negb_true_iff, truthy_false in E.
    + by rewrite E.
    + rewrite E in Hb; unfold referenceWords in Hb; rewrite words_empty in Hb.
      simpl in Hb; destruct (spokenTokens spoken); [reflexivity|simpl in Hb; lia].
  - destruct (_ <=? _)%Z eqn:E2.
    + apply Hnone. apply Z.leb_le in E2.
      destruct (spokenTokens spoken); [reflexivity|simpl in Hb; lia].
    + rewrite check_loop_in_bounds by (simpl; lia).
      cbv zeta; cbn [errors newPosition app fst snd]; rewrite length_map.
      pose proof (mismatch_split (referenceWords fullText) position
                    (indexed 0 (spokenTokens spoken))) as Hs.
      rewrite length_indexed in Hs.
      split; [reflexivity|split; [|lia]].
      apply Forall_map, Forall_forall; intros t _; reflexivity.
Qed.

(** C5, as stated, fails: with the cursor at 2 beyond a reference of one
    word, the one spoken token "ب" gives no [extra] event; the call
    returns the very no-op result, with no events at all. *)
Lemma checkCurrentWords_beyond_end_silent :
  (2 > Z.of_nat (length (referenceWords word_alif)))%Z
  ∧ spokenTokens word_ba = [word_ba]
  ∧ checkCurrentWords word_ba word_alif 2 = mkResult [] 2.
Proof. vm_compute; repeat split. Qed.

(** C5, amended: with a cursor at or beyond the reference length the
    aligner returns no events and the cursor it was given, whatever the
    chunk: the ordinary no-op result, no token being classified. *)
Theorem checkCurrentWords_beyond_end (spoken fullText : str) (position : Z) :
  (Z.of_nat (length (referenceWords fullText)) ≤ position)%Z →
  checkCurrentWords spoken fullText position = mkResult [] position.
Proof.
  intros H; rewrite checkCurrentWords_unfold.
  destruct (_ || _); [reflexivity|].
  by apply Z.leb_le in H as ->.
Qed.

Lemma checkCurrentWords_beyond_end_witness :
  checkCurrentWords word_ba word_alif 2 = mkResult [] 2.
Proof.
  apply (checkCurrentWords_beyond_end word_ba word_alif 2).
  vm_compute; discriminate.
Defined.

(** *** Words with the same letters *)

Lemma ratio_same n : n ≠ 0%nat → ratio n n == 1.
Proof.
  intros Hn; unfold ratio; apply Qmult_inv_r.
  unfold Qeq; simpl; lia.
Qed.

Lemma calculateSimilarity_same_letters (word1 word2 : str) :
  (∀ c : N, c ∈ normalizeArabicText word1 ↔ c ∈ normalizeArabicText word2) →
  calculateSimilarity word1 word2 == 1.
Proof.
  intros Hsame; unfold calculateSimilarity.
  case_bool_decide as Hne; [reflexivity|].
  assert (Heq : (list_to_set (normalizeArabicText word1) : gset N) =
                list_to_set (normalizeArabicText word2)).
  { apply set_eq; intros c; rewrite !elem_of_list_to_set; apply Hsame. }
  rewrite <- Heq.
  remember (list_to_set (normalizeArabicText word1) : gset N) as X eqn:HX1.
  assert (filter (λ x, x ∈ X) X = X) as ->
    by (apply set_eq; intros c; rewrite elem_of_filter; tauto).
  rewrite (union_idemp_L X).
  assert (HX : size X ≠ 0%nat).
  { intros H0; apply size_empty_iff, leibniz_equiv in H0.
    apply Hne.
    assert (Hnil : ∀ s : str, (list_to_set s : gset N) = ∅ → s = []).
    { intros [|c s] Hs; [reflexivity|].
      exfalso; apply (not_elem_of_empty (C := gset N) c).
      rewrite <- Hs; apply elem_of_list_to_set; left. }
    rewrite (Hnil (normalizeArabicText word1)) by congruence.
    rewrite (Hnil (normalizeArabicText word2)) by congruence.
    reflexivity. }
  destruct (0 <? size X)%nat eqn:E; [by apply ratio_same|].
  apply Nat.ltb_ge in E; lia.
Qed.

Lemma Qlt_bool_one x : x == 1 → Qlt_bool x (8 # 10) = false.
Proof.
  intros Hx; unfold Qlt_bool; apply negb_false_iff, Qle_bool_iff.
  rewrite Hx; discriminate.
Qed.

(** C9: two words whose normalized forms have the same set of letters
    score exactly 1, whether or not the normalized forms are the same
    string (they may differ in the order or the repetition of letters),
    and so pass the 0.8 threshold: a chunk that holds the one word against
    a reference that holds the other gives no event and moves the cursor
    by one. *)
Theorem same_letters_pass_as_match (word1 word2 : str) :
  (∀ c : N, c ∈ normalizeArabicText word1 ↔ c ∈ normalizeArabicText word2) →
  calculateSimilarity word1 word2 == 1
  ∧ Qlt_bool (calculateSimilarity word1 word2) (8 # 10) = false
  ∧ ∀ spoken fullText : str,
      spokenTokens spoken = [word1] →
      referenceWords fullText = [word2] →
      checkCurrentWords spoken fullText 0 = mkResult [] 1.
Proof.
  intros Hsame.
  pose proof (calculateSimilarity_same_letters _ _ Hsame) as Hone.
  pose proof (Qlt_bool_one _ Hone) as Hlt.
  repeat split; [exact Hone | exact Hlt |].
  intros spoken fullText Hs Hf.
  rewrite checkCurrentWords_unfold, Hs, Hf.
  destruct (negb (truthy spoken) || negb (truthy fullText)) eqn:E.
  - exfalso. apply orb_true_iff in E as [E|E];
      apply negb_true_iff, truthy_false in E; subst; discriminate.
  - simpl. by rewrite Hlt.
Qed.

Lemma same_letters_pass_as_match_witness :
  normalizeArabicText word_alif_ba ≠ normalizeArabicText word_ba_alif
  ∧ calculateSimilarity word_alif_ba word_ba_alif == 1
  ∧ checkCurrentWords word_alif_ba word_ba_alif 0 = mkResult [] 1.
Proof.
  split; [vm_compute; discriminate|].
  destruct (same_letters_pass_as_match word_alif_ba word_ba_alif) as (H1 & _ & H3).
  - intros c. change (normalizeArabicText word_alif_ba) with word_alif_ba.
    change (normalizeArabicText word_ba_alif) with word_ba_alif.
    unfold word_alif_ba, word_ba_alif; rewrite !elem_of_cons, !elem_of_nil; tauto.
  - split; [exact H1|]. apply H3; reflexivity.
Defined.
End AlignerFacts.

(** ** The full-session comparator and the report *)

Module ComparatorFacts.
Import FinalAnalysis.

(** The whole-text score of two different words of normalized texts is
    0 of 1. *)
Lemma calculateTextSimilarity_two_words s t w1 w2 :
  normal s → normal t → w1 ∈ words s → w2 ∈ words t → w1 ≠ w2 →
  calculateTextSimilarity w1 w2 = ratio 0 1.
Proof.
  intros Hs Ht H1 H2 Hne.
  destruct (words_normal _ _ Hs H1) as [Hn1 Hsp1].
  destruct (words_normal _ _ Ht H2) as [Hn2 Hsp2].
  unfold calculateTextSimilarity.
  rewrite (normal_fixed _ Hn1), (normal_fixed _ Hn2), Hsp1, Hsp2.
  rewrite bool_decide_eq_false_2 by exact Hne.
  cbn [length Nat.max Nat.eqb match_loop first_match].
  by rewrite (bool_decide_eq_false_2 (w1 = w2)), andb_false_r by exact Hne.
Qed.

Lemma compare_loop_similarity s t n i differences :
  normal s → normal t →
  Forall zero_or_absent differences →
  Forall zero_or_absent (compare_loop (words s) (words t) n i differences).
Proof.
  intros Hs Ht; revert i differences.
  induction n as [|n IH]; intros i differences Hd; [exact Hd|].
  cbn [compare_loop]; apply IH.
  destruct (words s !! i) as [w1|] eqn:E1, (words t !! i) as [w2|] eqn:E2;
    cbn [truthy_opt]; rewrite ?andb_false_r; cbn [andb negb];
    repeat match goal with
    | |- context [if ?b then _ else _] => destruct b eqn:?
    end;
    try exact Hd;
    (apply Forall_app; split; [exact Hd|]);
    (constructor; [|constructor]);
    try (by left).
  right; cbn [ErrorDetail.similarity from_option]; unfold id; f_equal.
  rewrite (calculateTextSimilarity_two_words s t);
    [reflexivity | done | done | by eapply list_elem_of_lookup_2
    | by eapply list_elem_of_lookup_2 |].
  intros Heq; subst w2.
  match goal with
  | H : bool_decide (_ ≠ _) = true |- _ => apply bool_decide_eq_true_1 in H; by apply H
  end.
Qed.

(** C2: the similarity field of every [incorrect] event of the comparator
    is 0 (the other events have none).  For the spoken word "بسم" against
    the reference word "بسن" the event carries 0, while the rounded
    character-set Jaccard measure of the two words is 50. *)
Theorem compareTexts_similarity_field :
  (∀ spoken original : str,
     Forall zero_or_absent (compareTexts spoken original).1)
  ∧ (compareTexts word_bsm word_bsn).1 =
      [ErrorDetail.mk incorrect (Some word_bsm) (Some word_bsn) None None (Some 0%Z)]
  ∧ Math_round (CheckRecitation.calculateSimilarity word_bsm word_bsn * 100) = 50%Z.
Proof.
  split; [|split; vm_compute; reflexivity].
  intros spoken original; unfold compareTexts; cbn [fst].
  apply compare_loop_similarity;
    [apply normalizeArabicText_normal | apply normalizeArabicText_normal | constructor].
Qed.

(** *** Completion percentage *)

(** C3: a reference text that holds a digit only has no words; with one
    word spoken the report gives a completion of 100, and with no word
    spoken (the transcript a digit as well) it gives NaN: the quotient by
    [totalWords] is taken unguarded. *)
Theorem POST_completion_zero_words :
  total_words_of (POST word_ba [0x31] []) = Some 0%nat
  ∧ number_is (completion_of (POST word_ba [0x31] [])) 100
  ∧ total_words_of (POST [0x31] [0x31] []) = Some 0%nat
  ∧ completion_of (POST [0x31] [0x31] []) = NaN.
Proof. vm_compute; repeat split. Qed.

(** C4, as stated, fails: the second realtime event of the session, "ب"
    spoken for "ا", is handed to the final analysis and has no entry in
    the report, whose entries are "د" for "ا" and the missing "ج". *)
Lemma POST_drops_realtime_event :
  session_errors =
    [RealtimeError.mk 0 word_dal (Some word_alif) incorrect 0;
     RealtimeError.mk 0 word_ba (Some word_alif) incorrect 0]
  ∧ report_events (POST session_transcript session_text session_errors) =
    [ErrorDetail.mk incorrect (Some word_dal) (Some word_alif)
       None None (Some 0%Z);
     ErrorDetail.mk missing None None (Some [0x62C]) None None]
  ∧ length (filter
      (same_event
         (RealtimeError.mk 0 word_ba (Some word_alif) incorrect 0))
      (report_events (POST session_transcript session_text session_errors))) = 0%nat.
Proof. vm_compute; repeat split. Qed.

Lemma by_type_permutation (l : list ErrorDetail.t) :
  l ≡ₚ filter (has_type incorrect) l ++ filter (has_type missing) l
         ++ filter (has_type extra) l.
Proof.
  induction l as [|d l IH]; [reflexivity|].
  rewrite !filter_cons.
  assert (Hty : ∀ ty, ErrorDetail.type d ≠ ty → ¬ has_type ty d) by (intros ty H; exact H).
  destruct (ErrorDetail.type d) eqn:E.
  all: try rewrite (decide_True (P := has_type incorrect d)) by exact E.
  all: try rewrite (decide_True (P := has_type missing d)) by exact E.
  all: try rewrite (decide_True (P := has_type extra d)) by exact E.
  all: rewrite ?(decide_False (P := has_type incorrect d)) by (by apply Hty).
  all: rewrite ?(decide_False (P := has_type missing d)) by (by apply Hty).
  all: rewrite ?(decide_False (P := has_type extra d)) by (by apply Hty).
  - simpl; by constructor.
  - rewrite (assoc (++) _ _ (d :: _)), <- Permutation_middle, <- (assoc (++));
      by constructor.
  - rewrite <- app_comm_cons, <- Permutation_middle; by constructor.
Qed.

(** C4, amended: the report holds the deviations that the full-session
    comparator finds in the transcript, and nothing else.  The list of
    each category is made of the comparator's deviations of that type, in
    the comparator's order and each as many times as the comparator
    returns it, so that every deviation is in the list of its category
    and in no other; the realtime events handed to the final analysis
    have no part in the report. *)
Theorem POST_reports_comparator_differences (transcript fullText : str)
    (realtimeErrors : list RealtimeError.t) (a : analysis) :
  POST transcript fullText realtimeErrors = json_response a →
  (∀ ty : error_type,
     category ty (errors_by_type a) =
     filter (λ d, ErrorDetail.type d = ty) (compareTexts transcript fullText).1)
  ∧ (compareTexts transcript fullText).1 ≡ₚ
      report_events (POST transcript fullText realtimeErrors)
  ∧ total_errors a = length (compareTexts transcript fullText).1
  ∧ ∀ others : list RealtimeError.t,
      POST transcript fullText others = json_response a.
Proof.
  unfold POST; intros H.
  destruct (negb (truthy transcript) || negb (truthy fullText)); [discriminate|].
  destruct (compareTexts transcript fullText) as [differences similarity].
  injection H as <-; simpl.
  split; [by intros []|].
  repeat split; apply by_type_permutation.
Qed.

Lemma POST_reports_comparator_differences_witness :
  ∃ a : analysis,
    POST session_transcript session_text session_errors = json_response a
    ∧ category incorrect (errors_by_type a) =
        [ErrorDetail.mk incorrect (Some word_dal) (Some word_alif)
           None None (Some 0%Z)]
    ∧ category missing (errors_by_type a) =
        [ErrorDetail.mk missing None None (Some [0x62C]) None None]
    ∧ category extra (errors_by_type a) = []
    ∧ POST session_transcript session_text [] = json_response a.
Proof.
  destruct (POST session_transcript session_text session_errors) as [|a] eqn:E;
    [vm_compute in E; discriminate|].
  destruct (POST_reports_comparator_differences _ _ _ _ E) as (Hc & _ & _ & Hi).
  exists a; split; [reflexivity|].
  rewrite (Hc incorrect), (Hc missing), (Hc extra), (Hi []).
  repeat split; vm_compute; reflexivity.
Defined.

End ComparatorFacts.

(** * Further properties *)

(** ** What the normalizer leaves *)

Module NormalizerFacts.

Lemma replace_class_none (p : N → bool) r s :
  Forall (λ c, p c = false) r → Forall (λ c, p c = false) (replace_class p r s).
Proof.
  intros Hr; induction s as [|c s IH]; [constructor|].
  rewrite replace_class_cons; apply Forall_app; split; [|exact IH].
  destruct (p c) eqn:E; [exact Hr | by repeat constructor].
Qed.

Lemma Forall_replace_class (P : N → Prop) (p : N → bool) r s :
  Forall P r → Forall P s → Forall P (replace_class p r s).
Proof.
  intros Hr; induction 1 as [|c s Hc _ IH]; [constructor|].
  rewrite replace_class_cons; apply Forall_app; split; [|exact IH].
  destruct (p c); [exact Hr | by repeat constructor].
Qed.

(** A class that one step empties stays empty through the later steps,
    none of which writes a code unit of it. *)
Ltac stage :=
  unfold letters;
  repeat first
    [ apply replace_class_none; by repeat constructor
    | apply Forall_replace_class; [by repeat constructor|] ].

Lemma letters_clean s :
  Forall (λ c, stripped c = false ∧ folded c = false ∧ is_digit c = false) (letters s).
Proof.
  assert (H1 : Forall (λ c, in_range 0x064B 0x0652 c = false) (letters s)) by stage.
  assert (H2 : Forall (λ c, in_range 0x0653 0x0655 c = false) (letters s)) by stage.
  assert (H3 : Forall (λ c, in_range 0x0656 0x065F c = false) (letters s)) by stage.
  assert (H4 : Forall (λ c, one_of [0x0670] c = false) (letters s)) by stage.
  assert (H5 : Forall (λ c, in_range 0x06D6 0x06ED c = false) (letters s)) by stage.
  assert (H6 : Forall (λ c, one_of [0x0640] c = false) (letters s)) by stage.
  assert (H7 : Forall (λ c, one_of [0x0623; 0x0625; 0x0622; 0x0671] c = false) (letters s))
    by stage.
  assert (H8 : Forall (λ c, one_of [0x0649; 0x0626] c = false) (letters s)) by stage.
  assert (H9 : Forall (λ c, one_of [0x0629] c = false) (letters s)) by stage.
  assert (H10 : Forall (λ c, is_digit c = false) (letters s)) by stage.
  rewrite Forall_forall in *; intros c Hc; unfold stripped, folded.
  by rewrite (H1 c), (H2 c), (H3 c), (H4 c), (H5 c), (H6 c), (H7 c), (H8 c), (H9 c),
    (H10 c).
Qed.

(** X1: the normalized text holds no code unit that the normalizer
    deletes (diacritics, annotation marks, tatweel), no letter variant
    that it folds, and no ASCII digit. *)
Theorem normalizeArabicText_clean (s : str) :
  Forall (λ c, stripped c = false ∧ folded c = false ∧ is_digit c = false)
    (normalizeArabicText s).
Proof.
  rewrite normalizeArabicText_letters.
  apply Forall_trim, Forall_replace_runs; [by repeat constructor | apply letters_clean].
Qed.

Lemma collapsed_spaces s : collapsed s → Forall (λ c, is_space c = true → c = 32) s.
Proof.
  induction s as [|c s IH]; [constructor|]; intros [Hc Hs].
  constructor; [intros H; by destruct (Hc H) | by apply IH].
Qed.

Lemma collapsed_adjacent s i c d :
  collapsed s → s !! i = Some c → s !! S i = Some d →
  is_space c = true → is_space d = false.
Proof.
  revert i; induction s as [|x s IH]; intros i Hcol Hc Hd Hsp; [done|].
  destruct Hcol as [Hx Hs].
  destruct i as [|i]; [|by eapply IH].
  simpl in Hc, Hd; injection Hc as ->.
  destruct s as [|y s]; [done|]. simpl in Hd; injection Hd as ->.
  by destruct (Hx Hsp).
Qed.

Lemma length_skip p s : (length (skip p s) ≤ length s)%nat.
Proof. induction s as [|c s IH]; simpl; [lia|]. destruct (p c); simpl; lia. Qed.

Lemma skip_fixed_head s c :
  skip is_space s = s → head s = Some c → is_space c = false.
Proof.
  destruct s as [|x s]; [done|]; simpl; intros H [= ->].
  destruct (is_space c); [|done].
  pose proof (length_skip is_space s) as Hl; rewrite H in Hl; simpl in Hl; lia.
Qed.

Lemma trim_end_fixed_last s c :
  trim_end s = s → last s = Some c → is_space c = false.
Proof.
  induction s as [|x s IH]; [done|]; rewrite trim_end_cons.
  destruct s as [|y s].
  - simpl; intros H [= ->]. by destruct (is_space c).
  - destruct (trim_end (y :: s)) as [|z r] eqn:E.
    + destruct (is_space x); discriminate.
    + intros H Hl; injection H as -> ->. by apply IH.
Qed.

Lemma normal_skip s : normal s → skip is_space s = s.
Proof. intros [_ _ Ht]. rewrite <- Ht. apply skip_trim_end. Qed.

Lemma normal_trim_end s : normal s → trim_end s = s.
Proof.
  intros [_ _ Ht]. rewrite <- Ht. apply trim_end_idem.
Qed.

(** X2: the whitespace of a normalized text is the space U+0020 only, no
    two of them next to each other, and none at the start or at the end. *)
Theorem normalizeArabicText_whitespace (s : str) :
  Forall (λ c, is_space c = true → c = 32) (normalizeArabicText s)
  ∧ (∀ (i : nat) (c d : N),
       normalizeArabicText s !! i = Some c →
       normalizeArabicText s !! S i = Some d →
       is_space c = true → is_space d = false)
  ∧ (∀ c : N, head (normalizeArabicText s) = Some c → is_space c = false)
  ∧ (∀ c : N, last (normalizeArabicText s) = Some c → is_space c = false).
Proof.
  pose proof (normalizeArabicText_normal s) as Hn.
  repeat split.
  - apply collapsed_spaces, Hn.
  - intros i c d; apply collapsed_adjacent, Hn.
  - intros c; by apply skip_fixed_head, normal_skip.
  - intros c; by apply trim_end_fixed_last, normal_trim_end.
Qed.

End NormalizerFacts.

(** ** Tokens of a text *)

Module TokenFacts.

Lemma nonempty_nil l : nonempty ([] :: l) = nonempty l.
Proof. unfold nonempty; by rewrite filter_cons, decide_False by (by intros []). Qed.

Lemma nonempty_cons w l : w ≠ [] → nonempty (w :: l) = w :: nonempty l.
Proof. intros H; unfold nonempty; by rewrite filter_cons, decide_True. Qed.

Lemma nonempty_app l l' : nonempty (l ++ l') = nonempty l ++ nonempty l'.
Proof. apply filter_app. Qed.

Lemma nonempty_map (f : str → str) l :
  f [] = [] → nonempty (map f (nonempty l)) = nonempty (map f l).
Proof.
  intros Hf; induction l as [|w l IH]; [reflexivity|].
  destruct w as [|c w].
  - by rewrite nonempty_nil; simpl; rewrite Hf, nonempty_nil.
  - rewrite nonempty_cons by done; simpl.
    destruct (f (c :: w)) as [|d v] eqn:E.
    + by rewrite !nonempty_nil.
    + by rewrite !nonempty_cons, IH.
Qed.

Lemma split_ws_cons c s :
  split_ws (c :: s) =
  if is_space c then
    match s with
    | c' :: _ => if is_space c' then split_ws s else [] :: split_ws s
    | [] => [[]; []]
    end
  else push c (split_ws s).
Proof. reflexivity. Qed.

Lemma split_each_cons c s :
  split_each (c :: s) = if is_space c then [] :: split_each s else push c (split_each s).
Proof. reflexivity. Qed.

(** *** Lists of pieces that differ in empty pieces only *)

Lemma same_pieces_refl l : l ≠ [] → same_pieces l l.
Proof. destruct l as [|w t]; [done|]; by exists w, t, t. Qed.

Lemma same_pieces_nonempty l l' : same_pieces l l' → nonempty l = nonempty l'.
Proof.
  intros (w & t & t' & -> & -> & H).
  destruct w; [by rewrite !nonempty_nil | by rewrite !nonempty_cons, H].
Qed.

Lemma same_pieces_trans l1 l2 l3 :
  same_pieces l1 l2 → same_pieces l2 l3 → same_pieces l1 l3.
Proof.
  intros (w & t & t' & -> & -> & H) (w' & u & u' & [= <- <-] & -> & H').
  exists w, t, u'; by rewrite H, H'.
Qed.

Lemma same_pieces_sym l l' : same_pieces l l' → same_pieces l' l.
Proof. intros (w & t & t' & -> & -> & H); by exists w, t', t. Qed.

Lemma same_pieces_sep l l' : same_pieces l l' → same_pieces ([] :: l) ([] :: l').
Proof.
  intros H; exists [], l, l'; repeat split; by apply same_pieces_nonempty.
Qed.

Lemma same_pieces_push c l l' : same_pieces l l' → same_pieces (push c l) (push c l').
Proof. intros (w & t & t' & -> & -> & H); by exists (c :: w), t, t'. Qed.

(** An empty piece more after an empty first piece. *)
Lemma same_pieces_empty t l' :
  same_pieces ([] :: t) l' → same_pieces ([] :: t) ([] :: l').
Proof.
  intros (w & u & u' & [= <- <-] & -> & H).
  exists [], t, ([] :: u'); by rewrite nonempty_nil.
Qed.

Lemma same_pieces_map (f : str → str) l l' :
  f [] = [] → same_pieces l l' → same_pieces (map f l) (map f l').
Proof.
  intros Hf (w & t & t' & -> & -> & H).
  exists (f w), (map f t), (map f t'); repeat split.
  by rewrite <- (nonempty_map f t), <- (nonempty_map f t'), H.
Qed.

Lemma split_each_space c s :
  is_space c = true → ∃ t, split_each (c :: s) = [] :: t.
Proof. intros H; rewrite split_each_cons, H; eauto. Qed.

Lemma split_each_not_nil s : split_each s ≠ [].
Proof.
  induction s as [|c s IH]; [done|]; rewrite split_each_cons.
  destruct (is_space c); [done|]. by destruct (split_each s).
Qed.

(** Splitting at runs and splitting at every whitespace code unit give
    the same pieces but for empty ones. *)
Lemma split_ws_each s : same_pieces (split_ws s) (split_each s).
Proof.
  induction s as [|c s IH]; [by apply same_pieces_refl|].
  rewrite split_ws_cons, split_each_cons.
  destruct (is_space c) eqn:Ec; [|by apply same_pieces_push].
  destruct s as [|d s]; [by apply same_pieces_refl|].
  destruct (is_space d) eqn:Ed; [|by apply same_pieces_sep].
  destruct (split_each_space d s Ed) as [t Ht].
  rewrite Ht in *.
  destruct IH as (w & u & u' & Hu & [= <- <-] & H).
  rewrite Hu. by exists [], u, ([] :: t); rewrite nonempty_nil.
Qed.

(** *** The steps of the normalizer on the pieces *)

Lemma same_pieces_collapse s :
  same_pieces (split_each (replace_runs is_space [32] s)) (split_each s).
Proof.
  induction s as [|c [|d s] IH].
  - by apply same_pieces_refl.
  - simpl replace_runs; destruct (is_space c) eqn:Ec.
    + rewrite !split_each_cons, Ec; by apply same_pieces_refl.
    + by apply same_pieces_refl, split_each_not_nil.
  - rewrite replace_runs_cons2.
    destruct (is_space c) eqn:Ec; [destruct (is_space d) eqn:Ed|].
    + rewrite (split_each_cons c), Ec.
      destruct (split_each_space d s Ed) as [t Ht]; rewrite Ht in *.
      destruct IH as (w & u & u' & Hu & [= <- <-] & H).
      rewrite Hu. by exists [], u, ([] :: t); rewrite nonempty_nil.
    + change ([32] ++ ?x) with (32 :: x).
      rewrite !split_each_cons, Ec; by apply same_pieces_sep.
    + rewrite !split_each_cons, Ec; by apply same_pieces_push.
Qed.

Lemma nonempty_skip s :
  nonempty (split_each (skip is_space s)) = nonempty (split_each s).
Proof.
  induction s as [|c s IH]; [reflexivity|]; simpl skip.
  destruct (is_space c) eqn:Ec; [|reflexivity].
  by rewrite split_each_cons, Ec, nonempty_nil.
Qed.

Lemma same_pieces_trim_end s :
  same_pieces (split_each (trim_end s)) (split_each s).
Proof.
  induction s as [|c s IH]; [by apply same_pieces_refl|].
  rewrite trim_end_cons, (split_each_cons c s).
  destruct (trim_end s) as [|d r] eqn:E.
  - destruct IH as (w & u & u' & [= <- <-] & Hu & H).
    rewrite Hu; destruct (is_space c) eqn:Ec.
    + exists [], [], ([] :: u'); by rewrite nonempty_nil.
    + rewrite split_each_cons, Ec. by exists [c], [], u'.
  - rewrite (split_each_cons c).
    destruct (is_space c); [by apply same_pieces_sep | by apply same_pieces_push].
Qed.

Lemma nonempty_trim s :
  nonempty (split_each (trim (replace_runs is_space [32] s))) = nonempty (split_each s).
Proof.
  unfold trim.
  rewrite (same_pieces_nonempty _ _ (same_pieces_trim_end _)), nonempty_skip.
  apply same_pieces_nonempty, same_pieces_collapse.
Qed.

Lemma foldr_push x w ws : foldr push (w :: ws) x = (x ++ w) :: ws.
Proof. induction x as [|c x IH]; [reflexivity|]; simpl; by rewrite IH. Qed.

Lemma split_each_app_no_space x y :
  no_space x → split_each (x ++ y) = foldr push (split_each y) x.
Proof.
  induction 1 as [|c x Hc _ IH]; [reflexivity|].
  simpl app; by rewrite split_each_cons, Hc, IH.
Qed.

(** A replacement that neither reads nor writes whitespace works piece
    by piece. *)
Lemma split_each_replace_class (p : N → bool) r s :
  (∀ c, is_space c = true → p c = false) → no_space r →
  split_each (replace_class p r s) = map (replace_class p r) (split_each s).
Proof.
  intros Hp Hr; induction s as [|c s IH]; [reflexivity|].
  rewrite replace_class_cons, split_each_cons.
  destruct (is_space c) eqn:Ec.
  - rewrite (Hp c Ec). simpl app. by rewrite split_each_cons, Ec, IH.
  - rewrite split_each_app_no_space, IH.
    + destruct (split_each s) as [|w ws] eqn:E; [by destruct (split_each_not_nil s)|].
      simpl map; by rewrite foldr_push.
    + destruct (p c); [exact Hr | by repeat constructor].
Qed.

Lemma space_cases c :
  is_space c = true → c ≤ 13 ∨ c = 32 ∨ c = 160 ∨ 5760 ≤ c.
Proof.
  unfold is_space; rewrite !orb_true_iff, !andb_true_iff, !N.leb_le, !N.eqb_eq; lia.
Qed.

Lemma space_not_in_range lo hi c :
  13 < lo → hi < 5760 → ¬ (lo ≤ 32 ≤ hi) → ¬ (lo ≤ 160 ≤ hi) →
  is_space c = true → in_range lo hi c = false.
Proof.
  intros ???? H%space_cases; unfold in_range.
  apply andb_false_iff; rewrite !N.leb_gt; lia.
Qed.

Lemma space_not_one_of cs c :
  Forall (λ d, 160 < d < 5760) cs → is_space c = true → one_of cs c = false.
Proof.
  intros Hcs H%space_cases; unfold one_of.
  induction Hcs as [|d cs Hd _ IH]; [reflexivity|]; simpl.
  rewrite IH, orb_false_r; apply N.eqb_neq; lia.
Qed.

Lemma split_each_letters s : split_each (letters s) = map letters (split_each s).
Proof.
  unfold letters.
  repeat (rewrite split_each_replace_class;
    [ | first [ intros c; apply space_not_in_range; lia
              | intros c; apply (space_not_in_range 0x30 0x39); lia
              | intros c; apply space_not_one_of; repeat constructor; lia ]
      | by repeat constructor ]).
  by rewrite !map_map.
Qed.

Lemma letters_nil : letters [] = [].
Proof. reflexivity. Qed.

Lemma filter_Forall_iff {A} (P Q : A → Prop) `{∀ x, Decision (P x)}
    `{∀ x, Decision (Q x)} (l : list A) :
  Forall (λ x, P x ↔ Q x) l → filter P l = filter Q l.
Proof.
  induction 1 as [|x l Hx _ IH]; [reflexivity|].
  rewrite !filter_cons, IH.
  destruct (decide (P x)), (decide (Q x)); tauto.
Qed.

(** The [filter] of the tokenizer drops the empty pieces, no other. *)
Lemma words_nonempty s : words s = nonempty (split_ws s).
Proof.
  unfold words, nonempty; apply filter_Forall_iff.
  pose proof (split_ws_pieces (λ _, True) s) as H.
  eapply Forall_impl; [apply H; by apply Forall_true|].
  intros w Hw; simpl in Hw.
  rewrite no_space_trim by (eapply Forall_impl; [exact Hw | by intros c [_ ?]]).
  by destruct w.
Qed.

Lemma words_each s : words s = nonempty (split_each s).
Proof. rewrite words_nonempty; apply same_pieces_nonempty, split_ws_each. Qed.

Lemma words_normalize_each s :
  words (normalizeArabicText s) = nonempty (map letters (split_each s)).
Proof.
  by rewrite words_each, normalizeArabicText_letters, nonempty_trim, split_each_letters.
Qed.

(** X3: the words of the normalized text are the pieces of the raw text
    between its whitespace runs, each put through the code-unit steps of
    the normalizer, the pieces that come out empty being dropped:
    normalizing and splitting commute. *)
Theorem words_of_raw_text (s : str) :
  words (normalizeArabicText s) = nonempty (map letters (split_ws s)).
Proof.
  rewrite words_normalize_each.
  symmetry; apply same_pieces_nonempty, same_pieces_map; [reflexivity|].
  apply split_ws_each.
Qed.

(** *** Joining the words again *)

Lemma join_words_cons w l : l ≠ [] → join_words (w :: l) = w ++ 32 :: join_words l.
Proof. by destruct l. Qed.

Lemma join_words_push c l : l ≠ [] → join_words (push c l) = c :: join_words l.
Proof. destruct l as [|w [|v t]]; done. Qed.

Lemma join_split_each s :
  Forall (λ c, is_space c = true → c = 32) s → join_words (split_each s) = s.
Proof.
  induction 1 as [|c s Hc _ IH]; [reflexivity|].
  rewrite split_each_cons; destruct (is_space c) eqn:Ec.
  - rewrite join_words_cons, IH, (Hc eq_refl) by apply split_each_not_nil; reflexivity.
  - by rewrite join_words_push, IH by apply split_each_not_nil.
Qed.

Lemma trim_end_fixed_tail c s : trim_end (c :: s) = c :: s → trim_end s = s.
Proof.
  rewrite trim_end_cons; destruct (trim_end s) as [|d r].
  - destruct (is_space c); [discriminate|]. by intros [= <-].
  - by intros [= <-].
Qed.

(** The pieces of a collapsed text without a space at its end: none but
    the first is empty, and the first is when the text starts with a
    space (or is empty). *)
Lemma split_each_collapsed s :
  collapsed s → trim_end s = s →
  ∃ w t, split_each s = w :: t ∧ Forall (λ v, v ≠ []) t
         ∧ (w = [] → s = [] ∨ ∃ c s', s = c :: s' ∧ is_space c = true).
Proof.
  induction s as [|c s IH]; intros Hcol Ht.
  - exists [], []; repeat split; auto.
  - destruct Hcol as [Hc Hs].
    destruct (IH Hs (trim_end_fixed_tail _ _ Ht)) as (w & t & E & Hne & Hw).
    rewrite split_each_cons, E; destruct (is_space c) eqn:Ec.
    + exists [], (w :: t); repeat split; [|right; eauto].
      constructor; [|exact Hne]. intros ->.
      destruct (Hc eq_refl) as [-> Hnext].
      destruct (Hw eq_refl) as [->|(d & s' & -> & Hd)]; [discriminate Ht|congruence].
    + exists (c :: w), t; repeat split; [exact Hne | discriminate].
Qed.

Lemma nonempty_all l : Forall (λ v : str, v ≠ []) l → nonempty l = l.
Proof.
  induction 1 as [|v l Hv _ IH]; [reflexivity|]. by rewrite nonempty_cons, IH.
Qed.

Lemma join_words_normal s : normal s → join_words (words s) = s.
Proof.
  intros Hn; rewrite words_each.
  destruct (split_each_collapsed s) as (w & t & E & Hne & Hw);
    [apply Hn | by apply NormalizerFacts.normal_trim_end|].
  destruct w as [|c w].
  - destruct (Hw eq_refl) as [->|(c & s' & -> & Hc)]; [reflexivity|].
    pose proof (NormalizerFacts.skip_fixed_head _ c
                  (NormalizerFacts.normal_skip _ Hn) eq_refl); congruence.
  - rewrite <- (join_split_each s) at 2
      by apply NormalizerFacts.collapsed_spaces, Hn.
    by rewrite E, nonempty_cons, nonempty_all.
Qed.

(** X4: joining the words of a normalized text with single spaces gives
    the normalized text back. *)
Theorem normalized_text_of_words (s : str) :
  join_words (words (normalizeArabicText s)) = normalizeArabicText s.
Proof. apply join_words_normal, normalizeArabicText_normal. Qed.

(** X5: a word of a normalized text is not empty, holds no whitespace and
    is left as it is by the normalizer. *)
Theorem words_are_normalized (s w : str) :
  w ∈ words (normalizeArabicText s) →
  w ≠ [] ∧ no_space w ∧ normalizeArabicText w = w.
Proof.
  intros Hw.
  pose proof (normalizeArabicText_normal s) as Hn.
  destruct (words_normal _ _ Hn Hw) as [Hnw _].
  repeat split.
  - rewrite words_nonempty in Hw. by apply list_elem_of_filter in Hw as [? _].
  - pose proof (words_pieces (λ _, True) (normalizeArabicText s)
                  (Forall_true _ _ (λ _, I))) as H.
    rewrite Forall_forall in H.
    eapply Forall_impl; [apply (H w Hw) | by intros c [_ ?]].
  - by apply normal_fixed.
Qed.

Lemma words_are_normalized_witness :
  word_ba ≠ [] ∧ no_space word_ba ∧ normalizeArabicText word_ba = word_ba.
Proof.
  apply (words_are_normalized session_text word_ba).
  vm_compute. right; left.
Defined.

Lemma split_each_app s c t :
  is_space c = true → split_each (s ++ c :: t) = split_each s ++ split_each t.
Proof.
  intros Hc; induction s as [|x s IH].
  - simpl app; by rewrite split_each_cons, Hc.
  - simpl app; rewrite !split_each_cons, IH.
    destruct (is_space x); [reflexivity|].
    destruct (split_each s) eqn:E; [by destruct (split_each_not_nil s)|reflexivity].
Qed.

(** X6: the words of two texts put together with a whitespace code unit
    between them are the words of the first followed by the words of the
    second. *)
Theorem words_of_joined_texts (s t : str) (c : N) :
  is_space c = true →
  words (normalizeArabicText (s ++ c :: t)) =
  words (normalizeArabicText s) ++ words (normalizeArabicText t).
Proof.
  intros Hc.
  by rewrite !words_normalize_each, split_each_app, map_app, nonempty_app.
Qed.

Lemma words_of_joined_texts_witness :
  words (normalizeArabicText (word_dal ++ 32 :: word_ba)) =
  words (normalizeArabicText word_dal) ++ words (normalizeArabicText word_ba).
Proof. apply (words_of_joined_texts word_dal word_ba 32); reflexivity. Defined.

End TokenFacts.

(** ** The word scorer *)

Module ScorerFacts.
Import CheckRecitation.

Lemma ratio_unfold a b :
  ratio a (S b) = (Z.of_nat a # Pos.of_succ_nat b).
Proof.
  unfold ratio, Qdiv, Qinv, Qmult, inject_Z; simpl.
  by rewrite Z.mul_1_r.
Qed.

Lemma ratio_range a b : (a ≤ b)%nat → (0 < b)%nat → (0 <= ratio a b <= 1)%Q.
Proof.
  intros Hab Hb; destruct b as [|b]; [lia|]; rewrite ratio_unfold.
  unfold Qle; simpl; lia.
Qed.

Lemma ratio_one a b : (0 < b)%nat → ratio a b == 1 ↔ a = b.
Proof.
  intros Hb; destruct b as [|b]; [lia|]; rewrite ratio_unfold.
  unfold Qeq; simpl; lia.
Qed.

Lemma ratio_zero a b : (0 < b)%nat → ratio a b == 0 ↔ a = 0%nat.
Proof.
  intros Hb; destruct b as [|b]; [lia|]; rewrite ratio_unfold.
  unfold Qeq; simpl; lia.
Qed.

Section Sets.
Context (X Y : gset N).

Lemma common_symmetric : filter (λ x, x ∈ Y) X = filter (λ x, x ∈ X) Y.
Proof. apply set_eq; intros c; rewrite !elem_of_filter; tauto. Qed.

Lemma common_subseteq : filter (λ x, x ∈ Y) X ⊆ X ∪ Y.
Proof. intros c; rewrite elem_of_filter, elem_of_union; tauto. Qed.

Lemma common_size : (size (filter (λ x, x ∈ Y) X) ≤ size (X ∪ Y))%nat.
Proof. apply subseteq_size, common_subseteq. Qed.

Lemma common_all :
  size (filter (λ x, x ∈ Y) X) = size (X ∪ Y) → X = Y.
Proof.
  intros Hsize.
  assert (H : filter (λ x, x ∈ Y) X ≡ X ∪ Y)
    by (apply set_subseteq_size_equiv; [apply common_subseteq | lia]).
  apply set_eq; intros c.
  specialize (H c); rewrite elem_of_filter, elem_of_union in H; tauto.
Qed.

Lemma common_none :
  size (filter (λ x, x ∈ Y) X) = 0%nat ↔ ∀ c, c ∈ X → c ∉ Y.
Proof.
  rewrite size_empty_iff; split.
  - intros H c Hx Hy. apply (not_elem_of_empty (C := gset N) c).
    apply H, elem_of_filter; auto.
  - intros H; apply elem_of_equiv_empty; intros c [Hy Hx]%elem_of_filter.
    by destruct (H c).
Qed.

End Sets.

Lemma letters_empty (s : str) : (list_to_set s : gset N) = ∅ → s = [].
Proof.
  destruct s as [|c s]; [reflexivity|]; intros H.
  exfalso; apply (not_elem_of_empty (C := gset N) c).
  rewrite <- H; apply elem_of_list_to_set; left.
Qed.

Lemma calculateSimilarity_comm (word1 word2 : str) :
  calculateSimilarity word1 word2 = calculateSimilarity word2 word1.
Proof.
  unfold calculateSimilarity.
  repeat case_bool_decide; try congruence.
  by rewrite common_symmetric, (comm_L (∪)).
Qed.

Lemma calculateSimilarity_bounds (word1 word2 : str) :
  (0 <= calculateSimilarity word1 word2 <= 1)%Q.
Proof.
  unfold calculateSimilarity.
  case_bool_decide; [split; discriminate|].
  destruct (0 <? _)%nat eqn:E; [|split; discriminate].
  apply Nat.ltb_lt in E. apply ratio_range; [apply common_size | exact E].
Qed.

(** X7: the similarity of two words does not depend on their order, and
    it lies between 0 and 1. *)
Theorem calculateSimilarity_symmetric_bounded (word1 word2 : str) :
  calculateSimilarity word1 word2 = calculateSimilarity word2 word1
  ∧ (0 <= calculateSimilarity word1 word2 <= 1)%Q.
Proof. split; [apply calculateSimilarity_comm | apply calculateSimilarity_bounds]. Qed.

(** X8: the similarity is 1 exactly when the two normalized words have the
    same set of code units. *)
Theorem calculateSimilarity_one_iff (word1 word2 : str) :
  calculateSimilarity word1 word2 == 1 ↔
  ∀ c : N, c ∈ normalizeArabicText word1 ↔ c ∈ normalizeArabicText word2.
Proof.
  split; [|apply AlignerFacts.calculateSimilarity_same_letters].
  unfold calculateSimilarity.
  case_bool_decide as Hn; [by rewrite Hn|].
  destruct (0 <? _)%nat eqn:E; [|discriminate].
  apply Nat.ltb_lt in E. rewrite (ratio_one _ _ E).
  intros Heq%common_all c.
  by rewrite <- !(elem_of_list_to_set (C := gset N)), Heq.
Qed.

(** X9: the similarity is 0 exactly when the two normalized words differ
    and share no code unit. *)
Theorem calculateSimilarity_zero_iff (word1 word2 : str) :
  calculateSimilarity word1 word2 == 0 ↔
  normalizeArabicText word1 ≠ normalizeArabicText word2
  ∧ ∀ c : N, c ∈ normalizeArabicText word1 → c ∉ normalizeArabicText word2.
Proof.
  unfold calculateSimilarity.
  case_bool_decide as Hn.
  { split; [discriminate | by intros [? _]]. }
  destruct (0 <? _)%nat eqn:E.
  - apply Nat.ltb_lt in E. rewrite (ratio_zero _ _ E), common_none.
    setoid_rewrite elem_of_list_to_set. tauto.
  - apply Nat.ltb_ge in E.
    assert (H0 : size (list_to_set (normalizeArabicText word1)
                         ∪ list_to_set (normalizeArabicText word2) : gset N) = 0%nat)
      by lia.
    apply size_empty_iff, leibniz_equiv, empty_union_L in H0 as [H1 H2].
    apply letters_empty in H1, H2; congruence.
Qed.

End ScorerFacts.

(** ** Calls of the incremental aligner *)

Module AlignmentFacts.
Import CheckRecitation.

(** With a cursor that is not negative the two tests for empty texts
    change nothing: an empty chunk has no tokens, and an empty reference
    has no words, so that the cursor is at its end. *)
Lemma checkCurrentWords_loop spoken fullText position :
  (0 ≤ position)%Z →
  checkCurrentWords spoken fullText position =
  if (Z.of_nat (length (referenceWords fullText)) <=? position)%Z
  then mkResult [] position
  else
    let r := check_loop (referenceWords fullText) position 0
               (spokenTokens spoken) [] 0%Z in
    mkResult r.1 (position + r.2)%Z.
Proof.
  intros Hpos; rewrite AlignerFacts.checkCurrentWords_unfold.
  destruct (negb (truthy spoken) || negb (truthy fullText)) eqn:E; [|reflexivity].
  apply orb_true_iff in E as [E|E];
    apply negb_true_iff, AlignerFacts.truthy_false in E; subst.
  - destruct (_ <=? _)%Z; [reflexivity|].
    unfold spokenTokens; rewrite AlignerFacts.words_empty; simpl.
    by rewrite Z.add_0_r.
  - unfold referenceWords at 1; rewrite AlignerFacts.words_empty.
    destruct (_ <=? _)%Z eqn:E; [reflexivity|].
    apply Z.leb_gt in E; simpl in E; lia.
Qed.

Section Loop.
Context (allWords : list str) (position : Z).

Lemma token_event_incorrect t :
  in_bounds allWords position t → mismatch allWords position t →
  token_event allWords position t = Some (incorrect_event allWords position t)
  ∧ ¬ matched allWords position t.
Proof.
  intros Hb Hm; unfold token_event, matched.
  rewrite !decide_True by done; split; [reflexivity | tauto].
Qed.

Lemma token_event_none t :
  in_bounds allWords position t → ¬ mismatch allWords position t →
  token_event allWords position t = None ∧ matched allWords position t.
Proof.
  intros Hb Hm; unfold token_event, matched.
  by rewrite decide_True, decide_False.
Qed.

Lemma token_event_extra t :
  ¬ in_bounds allWords position t →
  token_event allWords position t = Some (extra_event position t)
  ∧ ¬ matched allWords position t.
Proof.
  intros Hb; unfold token_event, matched.
  rewrite decide_False by done; split; [reflexivity | tauto].
Qed.

Lemma omap_cons {A B} (f : A → option B) x l :
  omap f (x :: l) = match f x with Some y => y :: omap f l | None => omap f l end.
Proof. reflexivity. Qed.

Lemma check_loop_events spokenWords i errors processedWords :
  check_loop allWords position i spokenWords errors processedWords =
  (errors ++ omap (token_event allWords position) (indexed i spokenWords),
   (processedWords +
      Z.of_nat (length (filter (matched allWords position) (indexed i spokenWords))))%Z).
Proof.
  revert i errors processedWords.
  induction spokenWords as [|w rest IH]; intros i errors pw.
  - simpl; by rewrite app_nil_r, Z.add_0_r.
  - simpl check_loop.
    change (indexed i (w :: rest)) with ((i, w) :: indexed (S i) rest).
    rewrite filter_cons, omap_cons.
    change (calculateSimilarity w _) with (token_similarity allWords position (i, w)).
    destruct (_ <? _)%Z eqn:Eb.
    + apply Z.ltb_lt in Eb.
      destruct (Qlt_bool (token_similarity allWords position (i, w)) (8 # 10)) eqn:E.
      * destruct (token_event_incorrect (i, w) Eb E) as [-> Hm].
        by rewrite IH, decide_False, <- app_assoc.
      * destruct (token_event_none (i, w) Eb) as [-> Hm];
          [unfold mismatch; congruence|].
        rewrite IH, decide_True by done. f_equal; simpl length; lia.
    + apply Z.ltb_ge in Eb.
      destruct (token_event_extra (i, w)) as [-> Hm];
        [unfold in_bounds; simpl; lia|].
      by rewrite IH, decide_False, <- app_assoc.
Qed.

(** Every token either moves the cursor or leaves one event. *)
Lemma check_loop_count spokenWords i errors processedWords :
  let r := check_loop allWords position i spokenWords errors processedWords in
  (Z.of_nat (length r.1) + r.2 =
   Z.of_nat (length errors) + processedWords + Z.of_nat (length spokenWords))%Z.
Proof.
  revert i errors processedWords.
  induction spokenWords as [|w rest IH]; intros i errors pw; simpl; [lia|].
  destruct (_ <? _)%Z; [destruct (Qlt_bool _ _)|];
    simpl in IH; rewrite IH, ?length_app; simpl; lia.
Qed.

(** Tokens that are the reference words from the cursor on. *)
Lemma check_loop_exact spokenWords i errors processedWords :
  (0 ≤ position)%Z →
  (∀ j w, spokenWords !! j = Some w →
          allWords !! (Z.to_nat position + i + j)%nat = Some w) →
  check_loop allWords position i spokenWords errors processedWords =
  (errors, (processedWords + Z.of_nat (length spokenWords))%Z).
Proof.
  intros Hpos; revert i errors processedWords.
  induction spokenWords as [|w rest IH]; intros i errors pw Hw.
  - simpl; by rewrite Z.add_0_r.
  - pose proof (Hw 0%nat w eq_refl) as H0; rewrite Nat.add_0_r in H0.
    pose proof (lookup_lt_Some _ _ _ H0) as Hlt.
    simpl check_loop.
    assert ((position + Z.of_nat i <? Z.of_nat (length allWords))%Z = true) as ->
      by (apply Z.ltb_lt; lia).
    assert (js_index allWords (position + Z.of_nat i) = Some w) as ->.
    { unfold js_index.
      assert ((position + Z.of_nat i <? 0)%Z = false) as -> by (apply Z.ltb_ge; lia).
      rewrite <- H0; f_equal; lia. }
    assert (calculateSimilarity w (default [] (Some w)) = 1%Q) as ->
      by (unfold calculateSimilarity; simpl; by rewrite bool_decide_eq_true_2).
    change (Qlt_bool 1 (8 # 10)) with false; cbv iota.
    rewrite IH.
    + f_equal; simpl length; lia.
    + intros j v Hj. rewrite <- (Hw (S j) v Hj); f_equal; lia.
Qed.

End Loop.

(** X10: with a cursor that is not negative and before the end of the
    reference, the events of a call are the events of its tokens in
    order: one [incorrect] event for a token in bounds with similarity
    below 0.8, one [extra] event for a token out of bounds, none
    otherwise, each with the position, the words and the type of its
    token; the cursor moves by the number of tokens in bounds with
    similarity at least 0.8.  The events carry the similarity numbers of
    the exact percentages too when no percentage of a flagged token is
    half-way between two integers. *)
Theorem checkCurrentWords_events (spoken fullText : str) (position : Z) :
  (0 ≤ position < Z.of_nat (length (referenceWords fullText)))%Z →
  let allWords := referenceWords fullText in
  let tokens := indexed 0 (spokenTokens spoken) in
  map deviation (errors (checkCurrentWords spoken fullText position)) =
    map deviation (omap (token_event allWords position) tokens)
  ∧ newPosition (checkCurrentWords spoken fullText position) =
    (position + Z.of_nat (length (filter (matched allWords position) tokens)))%Z
  ∧ (Forall (exact_number allWords position) tokens →
     errors (checkCurrentWords spoken fullText position) =
       omap (token_event allWords position) tokens).
Proof.
  intros [Hpos Hlt] allWords tokens; subst allWords tokens.
  rewrite checkCurrentWords_loop by exact Hpos.
  assert ((Z.of_nat (length (referenceWords fullText)) <=? position)%Z = false) as ->
    by (apply Z.leb_gt; lia).
  by rewrite check_loop_events.
Qed.

Lemma checkCurrentWords_events_witness :
  errors (checkCurrentWords [0x628; 32; 0x627; 32; 0x62F] [0x627; 32; 0x627] 0) =
    [RealtimeError.mk 0 word_ba (Some word_alif) incorrect 0;
     RealtimeError.mk 2 word_dal (Some []) extra 0]
  ∧ newPosition (checkCurrentWords [0x628; 32; 0x627; 32; 0x62F] [0x627; 32; 0x627] 0)
    = 1%Z.
Proof.
  pose proof (checkCurrentWords_events
                [0x628; 32; 0x627; 32; 0x62F] [0x627; 32; 0x627] 0) as H.
  cbv zeta in H.
  destruct H as (_ & Hp & He); [vm_compute; split; [discriminate|reflexivity]|].
  split; [rewrite He | rewrite Hp; vm_compute; reflexivity].
  - vm_compute; reflexivity.
  - repeat constructor; intros _ _; vm_compute; discriminate.
Defined.

(** X11: with a cursor that is not negative and before the end of the
    reference, every spoken token either moves the cursor by one or
    leaves exactly one event. *)
Theorem checkCurrentWords_accounts_for_tokens (spoken fullText : str) (position : Z) :
  (0 ≤ position < Z.of_nat (length (referenceWords fullText)))%Z →
  (Z.of_nat (length (errors (checkCurrentWords spoken fullText position)))
   + (newPosition (checkCurrentWords spoken fullText position) - position)
   = Z.of_nat (length (spokenTokens spoken)))%Z.
Proof.
  intros [Hpos Hlt].
  rewrite checkCurrentWords_loop by exact Hpos.
  assert ((Z.of_nat (length (referenceWords fullText)) <=? position)%Z = false) as ->
    by (apply Z.leb_gt; lia).
  pose proof (check_loop_count (referenceWords fullText) position
                (spokenTokens spoken) 0 [] 0%Z) as H.
  simpl in *; lia.
Qed.

Lemma checkCurrentWords_accounts_for_tokens_witness :
  (Z.of_nat (length (errors (checkCurrentWords session_transcript session_text 0)))
   + (newPosition (checkCurrentWords session_transcript session_text 0) - 0)
   = Z.of_nat (length (spokenTokens session_transcript)))%Z.
Proof.
  apply (checkCurrentWords_accounts_for_tokens session_transcript session_text 0).
  vm_compute; split; [discriminate|reflexivity].
Defined.

(** X12: a chunk whose tokens are the reference words that follow the
    cursor gives no event and moves the cursor by the number of its
    tokens. *)
Theorem checkCurrentWords_exact (spoken fullText : str) (position : Z) (n : nat) :
  (0 ≤ position)%Z →
  spokenTokens spoken = take n (drop (Z.to_nat position) (referenceWords fullText)) →
  checkCurrentWords spoken fullText position =
  mkResult [] (position + Z.of_nat (length (spokenTokens spoken))).
Proof.
  intros Hpos Htok; rewrite checkCurrentWords_loop by exact Hpos.
  destruct (_ <=? _)%Z eqn:E.
  - apply Z.leb_le in E.
    rewrite Htok, drop_ge, take_nil by lia. simpl; by rewrite Z.add_0_r.
  - rewrite check_loop_exact; [reflexivity | exact Hpos |].
    intros j w Hj. rewrite Htok, lookup_take_Some in Hj.
    destruct Hj as [Hj _]. rewrite lookup_drop in Hj.
    rewrite <- Hj; f_equal; lia.
Qed.

Lemma checkCurrentWords_exact_witness :
  checkCurrentWords [0x628; 32; 0x62C] session_text 1 = mkResult [] 3.
Proof.
  apply (checkCurrentWords_exact [0x628; 32; 0x62C] session_text 1 2);
    [discriminate | reflexivity].
Defined.

(** X13: a chunk without tokens (empty, or of whitespace, diacritics and
    digits only) gives no event and leaves the cursor where it is. *)
Theorem checkCurrentWords_no_tokens (spoken fullText : str) (position : Z) :
  spokenTokens spoken = [] →
  checkCurrentWords spoken fullText position = mkResult [] position.
Proof.
  intros Htok; rewrite AlignerFacts.checkCurrentWords_unfold, Htok.
  destruct (_ || _); [reflexivity|].
  destruct (_ <=? _)%Z; [reflexivity|]. simpl; by rewrite Z.add_0_r.
Qed.

Lemma checkCurrentWords_no_tokens_witness :
  checkCurrentWords [32; 0x64E; 0x31] session_text 1 = mkResult [] 1.
Proof.
  apply (checkCurrentWords_no_tokens [32; 0x64E; 0x31] session_text 1).
  reflexivity.
Defined.

(** X14: with a cursor that is not negative the result depends on the
    chunk and on the reference through their normalized texts only:
    diacritics, letter variants, digits and the amount of whitespace make
    no difference. *)
Theorem checkCurrentWords_normalized (spoken spoken' fullText fullText' : str)
    (position : Z) :
  (0 ≤ position)%Z →
  normalizeArabicText spoken = normalizeArabicText spoken' →
  normalizeArabicText fullText = normalizeArabicText fullText' →
  checkCurrentWords spoken fullText position =
  checkCurrentWords spoken' fullText' position.
Proof.
  intros Hpos Hs Hf.
  rewrite !checkCurrentWords_loop by exact Hpos.
  unfold referenceWords, spokenTokens; by rewrite Hs, Hf.
Qed.

Lemma checkCurrentWords_normalized_witness :
  checkCurrentWords [0x628; 0x650; 32; 32; 0x623] [0x628; 32; 0x627; 0x64E; 0x31] 0 =
  checkCurrentWords [0x628; 32; 0x627] [0x628; 32; 0x627] 0.
Proof.
  apply (checkCurrentWords_normalized
           [0x628; 0x650; 32; 32; 0x623] [0x628; 32; 0x627]
           [0x628; 32; 0x627; 0x64E; 0x31] [0x628; 32; 0x627] 0);
    [discriminate | reflexivity | reflexivity].
Defined.

(** *** The shape of the events *)

Lemma elem_of_indexed (k i : nat) (w : str) (l : list str) :
  (i, w) ∈ indexed k l → (k ≤ i)%nat ∧ l !! (i - k)%nat = Some w.
Proof.
  revert k; induction l as [|v l IH]; intros k.
  - by intros ?%elem_of_nil.
  - change (indexed k (v :: l)) with ((k, v) :: indexed (S k) l).
    intros [[= -> ->]|H]%elem_of_cons.
    + by rewrite Nat.sub_diag.
    + destruct (IH _ H) as [Hk Hl]; split; [lia|].
      by replace (i - k)%nat with (S (i - S k)) by lia.
Qed.

Lemma Math_round_percent (x : Q) :
  (0 <= x)%Q → Qlt_bool x (8 # 10) = true → (0 ≤ Math_round (x * 100) ≤ 80)%Z.
Proof.
  intros H0 Hlt; unfold Qlt_bool in Hlt.
  apply negb_true_iff in Hlt.
  assert (Hx : (x < 8 # 10)%Q).
  { apply Qnot_le_lt; intros H%Qle_bool_iff; congruence. }
  unfold Math_round; split.
  - change 0%Z with (Qfloor 0%Q); apply Qfloor_resp_le.
    apply Qle_trans with (x * 100)%Q.
    + rewrite <- (Qmult_0_l 100). apply Qmult_le_compat_r; [exact H0 | discriminate].
    + rewrite <- (Qplus_0_r (x * 100)) at 1. apply Qplus_le_r; discriminate.
  - change 80%Z with (Qfloor ((8 # 10) * 100 + (1 # 2))%Q); apply Qfloor_resp_le.
    apply Qplus_le_l, Qmult_le_compat_r; [by apply Qlt_le_weak | discriminate].
Qed.

(** X15: every event of a call belongs to one token of the chunk, at the
    position of the cursor plus the index of the token.  An [incorrect]
    event lies before the end of the reference, names the reference word
    of its position and a similarity from 0 to 80; an [extra] event lies
    at or after the end and names the empty word and the similarity 0. *)
Theorem checkCurrentWords_event_shape (spoken fullText : str) (position : Z) :
  Forall (λ e,
    ∃ i : nat,
      spokenTokens spoken !! i = Some (RealtimeError.spoken e)
      ∧ RealtimeError.position e = (position + Z.of_nat i)%Z
      ∧ match RealtimeError.type e with
        | incorrect =>
            (RealtimeError.position e < Z.of_nat (length (referenceWords fullText)))%Z
            ∧ RealtimeError.expected e =
                js_index (referenceWords fullText) (RealtimeError.position e)
            ∧ (0 ≤ RealtimeError.similarity e ≤ 80)%Z
        | extra =>
            (Z.of_nat (length (referenceWords fullText)) ≤ RealtimeError.position e)%Z
            ∧ RealtimeError.expected e = Some []
            ∧ RealtimeError.similarity e = 0%Z
        | missing => False
        end)
    (errors (checkCurrentWords spoken fullText position)).
Proof.
  rewrite AlignerFacts.checkCurrentWords_unfold.
  destruct (_ || _); [constructor|].
  destruct (_ <=? _)%Z; [constructor|].
  rewrite check_loop_events; cbn [fst errors app].
  apply Forall_forall; intros e He.
  apply list_elem_of_omap in He as ([i w] & Hin & Hev).
  apply elem_of_indexed in Hin as [_ Hi]; rewrite Nat.sub_0_r in Hi.
  exists i; unfold token_event in Hev.
  destruct (decide (in_bounds _ _ _)) as [Hb|Hb].
  - destruct (decide (mismatch _ _ _)) as [Hm|Hm]; [|discriminate].
    injection Hev as <-; simpl.
    repeat split; [exact Hi | exact Hb | |];
      apply Math_round_percent; try exact Hm;
      apply ScorerFacts.calculateSimilarity_bounds.
  - injection Hev as <-; simpl.
    repeat split; [exact Hi|]. unfold in_bounds in Hb; simpl in Hb; lia.
Qed.

(** X16: the events of a call come in the order of the tokens: their
    positions grow strictly. *)
Theorem checkCurrentWords_events_ordered (spoken fullText : str) (position : Z) :
  StronglySorted Z.lt
    (map RealtimeError.position (errors (checkCurrentWords spoken fullText position))).
Proof.
  rewrite AlignerFacts.checkCurrentWords_unfold.
  destruct (_ || _); [constructor|].
  destruct (_ <=? _)%Z; [constructor|].
  rewrite check_loop_events; cbn [fst errors app].
  generalize (spokenTokens spoken) 0%nat; intros l.
  induction l as [|w l IH]; intros k; [constructor|].
  change (indexed k (w :: l)) with ((k, w) :: indexed (S k) l).
  rewrite omap_cons.
  destruct (token_event _ _ (k, w)) as [e|] eqn:E; [|apply IH].
  simpl; constructor; [apply IH|].
  assert (He : RealtimeError.position e = (position + Z.of_nat k)%Z).
  { unfold token_event in E; repeat case_decide; by simplify_eq. }
  rewrite He; apply Forall_forall; intros p Hp.
  apply list_elem_of_fmap in Hp as (e' & -> & He').
  apply list_elem_of_omap in He' as ([i v] & Hin & Hev).
  apply elem_of_indexed in Hin as [Hk _].
  assert (RealtimeError.position e' = (position + Z.of_nat i)%Z) as ->
    by (unfold token_event in Hev; repeat case_decide; by simplify_eq).
  lia.
Qed.

End AlignmentFacts.

(** ** The whole-text scorer *)

Module TextScoreFacts.
Import FinalAnalysis.

Lemma elem_of_insert_ne (used : gset nat) (k j : nat) :
  k ≠ j → j ∈ {[k]} ∪ used ↔ j ∈ used.
Proof. intros Hk; rewrite elem_of_union, elem_of_singleton; intuition congruence. Qed.

Lemma unused_from_insert_lt used k j ws :
  (k < j)%nat → unused_from ({[k]} ∪ used) j ws = unused_from used j ws.
Proof.
  revert j; induction ws as [|w ws IH]; intros j Hk; [reflexivity|]; simpl.
  rewrite IH by lia.
  destruct (decide (j ∈ used)) as [H|H].
  - by rewrite decide_True by (apply elem_of_insert_ne; [lia|done]).
  - by rewrite decide_False by (rewrite elem_of_insert_ne; [done|lia]).
Qed.

Lemma unused_from_empty j ws : unused_from ∅ j ws = ws.
Proof.
  revert j; induction ws as [|w ws IH]; intros j; [reflexivity|]; simpl.
  by rewrite IH.
Qed.

Lemma first_match_ge word1 used j ws k :
  first_match word1 used j ws = Some k → (j ≤ k)%nat.
Proof.
  revert j; induction ws as [|w ws IH]; intros j; [discriminate|]; simpl.
  destruct (_ && _); [intros [= <-]; lia | intros H%IH; lia].
Qed.

(** The inner loop finds a word exactly when an unused copy is left, and
    using its index takes one copy away. *)
Lemma first_match_Some word1 used j ws k :
  first_match word1 used j ws = Some k →
  bag (unused_from used j ws) =
  {[+ word1 +]} ⊎ bag (unused_from ({[k]} ∪ used) j ws).
Proof.
  revert j; induction ws as [|w ws IH]; intros j; [discriminate|]; simpl.
  destruct (bool_decide (j ∉ used) && bool_decide (word1 = w)) eqn:E.
  - intros [= <-].
    apply andb_true_iff in E as [Hj%bool_decide_eq_true_1 ->%bool_decide_eq_true_1].
    rewrite decide_False by exact Hj.
    rewrite decide_True by (apply elem_of_union_l, elem_of_singleton; reflexivity).
    rewrite unused_from_insert_lt by lia.
    unfold bag; by rewrite list_to_set_disj_cons.
  - intros Hk. pose proof (first_match_ge _ _ _ _ _ Hk) as Hjk.
    specialize (IH _ Hk).
    destruct (decide (j ∈ used)) as [Hj|Hj].
    + by rewrite decide_True by (apply elem_of_insert_ne; [lia|done]).
    + rewrite decide_False by (rewrite elem_of_insert_ne; [done|lia]).
      unfold bag in *; rewrite !list_to_set_disj_cons, IH. multiset_solver.
Qed.

Lemma first_match_None word1 used j ws :
  first_match word1 used j ws = None → word1 ∉ bag (unused_from used j ws).
Proof.
  revert j; induction ws as [|w ws IH]; intros j; simpl.
  - intros _; unfold bag; simpl. multiset_solver.
  - destruct (bool_decide (j ∉ used) && bool_decide (word1 = w)) eqn:E; [discriminate|].
    intros H%IH.
    destruct (decide (j ∈ used)) as [Hj|Hj]; [exact H|].
    rewrite bool_decide_eq_true_2 in E by exact Hj; simpl in E.
    apply bool_decide_eq_false_1 in E.
    unfold bag in *; rewrite list_to_set_disj_cons.
    rewrite gmultiset_elem_of_disj_union, gmultiset_elem_of_singleton; tauto.
Qed.

Lemma match_loop_bag words1 words2 matches used :
  match_loop words1 words2 matches used =
  (matches + size (bag words1 ∩ bag (unused_from used 0 words2)))%nat.
Proof.
  revert matches used; induction words1 as [|w ws IH]; intros m used; simpl.
  - assert (bag [] ∩ bag (unused_from used 0 words2) = ∅) as ->
      by (unfold bag; simpl; multiset_solver).
    rewrite gmultiset_size_empty; lia.
  - replace (bag (w :: ws)) with ({[+ w +]} ⊎ bag ws)
      by (unfold bag; by rewrite list_to_set_disj_cons).
    destruct (first_match w used 0 words2) as [k|] eqn:E.
    + rewrite IH, (first_match_Some _ _ _ _ _ E).
      assert (({[+ w +]} ⊎ bag ws)
              ∩ ({[+ w +]} ⊎ bag (unused_from ({[k]} ∪ used) 0 words2))
              = {[+ w +]} ⊎ (bag ws ∩ bag (unused_from ({[k]} ∪ used) 0 words2)))
        as -> by multiset_solver.
      rewrite gmultiset_size_disj_union, gmultiset_size_singleton; lia.
    + rewrite IH. apply first_match_None in E.
      assert (({[+ w +]} ⊎ bag ws) ∩ bag (unused_from used 0 words2)
              = bag ws ∩ bag (unused_from used 0 words2)) as ->; [|reflexivity].
      apply gmultiset_eq; intros x.
      rewrite !multiplicity_intersection, multiplicity_disj_union.
      destruct (decide (x = w)) as [->|Hx].
      * apply not_elem_of_multiplicity in E; rewrite E; lia.
      * rewrite multiplicity_singleton_ne by done; lia.
Qed.

Lemma split_ws_not_nil s : split_ws s ≠ [].
Proof. by destruct (TokenFacts.split_ws_each s) as (w & t & t' & -> & _). Qed.

Lemma bag_size ws : size (bag ws) = length ws.
Proof.
  unfold bag; induction ws as [|w ws IH]; [apply gmultiset_size_empty|].
  rewrite list_to_set_disj_cons, gmultiset_size_disj_union, gmultiset_size_singleton, IH.
  reflexivity.
Qed.

Lemma bag_elements ws : elements (bag ws) ≡ₚ ws.
Proof.
  unfold bag; induction ws as [|w ws IH];
    [by rewrite list_to_set_disj_nil, gmultiset_elements_empty|].
  rewrite list_to_set_disj_cons, gmultiset_elements_disj_union,
    gmultiset_elements_singleton, IH.
  reflexivity.
Qed.

Lemma bag_common_size ws1 ws2 :
  (size (bag ws1 ∩ bag ws2) ≤ Nat.min (length ws1) (length ws2))%nat.
Proof.
  apply Nat.min_glb; rewrite <- bag_size;
    apply gmultiset_subseteq_size; multiset_solver.
Qed.

Lemma subseteq_same_size (X Y : gmultiset (list N)) : X ⊆ Y → size X = size Y → X = Y.
Proof.
  intros Hsub Hsize.
  destruct (decide (X = Y)) as [|Hne]; [done|].
  assert (X ⊂ Y) as Hlt%gmultiset_subset_size by multiset_solver. lia.
Qed.

Lemma calculateTextSimilarity_bag (text1 text2 : str) :
  calculateTextSimilarity text1 text2 =
  if bool_decide (normalizeArabicText text1 = normalizeArabicText text2) then 1%Q
  else
    ratio (size (bag (split_ws (normalizeArabicText text1))
                 ∩ bag (split_ws (normalizeArabicText text2))))
          (Nat.max (length (split_ws (normalizeArabicText text1)))
                   (length (split_ws (normalizeArabicText text2)))).
Proof.
  unfold calculateTextSimilarity.
  case_bool_decide; [reflexivity|].
  destruct (Nat.max _ _ =? 0)%nat eqn:E.
  - apply Nat.eqb_eq in E.
    pose proof (split_ws_not_nil (normalizeArabicText text1)) as Hne.
    destruct (split_ws (normalizeArabicText text1)); [done|simpl in E; lia].
  - by rewrite match_loop_bag, unused_from_empty.
Qed.

(** X17: but for texts with the same normalized form, which score 1, the
    score of two texts is the number of words that the two have in
    common, each counted as often as it occurs in both, over the greater
    of the two word counts (the words being the pieces that [split]
    gives). *)
Theorem calculateTextSimilarity_common_words (text1 text2 : str) :
  calculateTextSimilarity text1 text2 =
  if bool_decide (normalizeArabicText text1 = normalizeArabicText text2) then 1%Q
  else
    ratio (size (bag (split_ws (normalizeArabicText text1))
                 ∩ bag (split_ws (normalizeArabicText text2))))
          (Nat.max (length (split_ws (normalizeArabicText text1)))
                   (length (split_ws (normalizeArabicText text2)))).
Proof. apply calculateTextSimilarity_bag. Qed.

Lemma calculateTextSimilarity_comm (text1 text2 : str) :
  calculateTextSimilarity text1 text2 = calculateTextSimilarity text2 text1.
Proof.
  rewrite !calculateTextSimilarity_bag.
  repeat case_bool_decide; try congruence.
  by rewrite (comm_L (∩)), Nat.max_comm.
Qed.

Lemma calculateTextSimilarity_bounds (text1 text2 : str) :
  (0 <= calculateTextSimilarity text1 text2 <= 1)%Q.
Proof.
  rewrite calculateTextSimilarity_bag.
  case_bool_decide; [split; discriminate|].
  pose proof (bag_common_size (split_ws (normalizeArabicText text1))
                (split_ws (normalizeArabicText text2))) as Hc.
  pose proof (split_ws_not_nil (normalizeArabicText text1)) as Hne.
  apply ScorerFacts.ratio_range; [lia|].
  destruct (split_ws (normalizeArabicText text1)); [done|simpl; lia].
Qed.

(** X18: the score of two texts does not depend on their order, and it
    lies between 0 and 1. *)
Theorem calculateTextSimilarity_symmetric_bounded (text1 text2 : str) :
  calculateTextSimilarity text1 text2 = calculateTextSimilarity text2 text1
  ∧ (0 <= calculateTextSimilarity text1 text2 <= 1)%Q.
Proof.
  split; [apply calculateTextSimilarity_comm | apply calculateTextSimilarity_bounds].
Qed.

(** X19: the score of two texts is 1 exactly when the words of the one
    are the words of the other in some order. *)
Theorem calculateTextSimilarity_one_iff (text1 text2 : str) :
  calculateTextSimilarity text1 text2 == 1 ↔
  split_ws (normalizeArabicText text1) ≡ₚ split_ws (normalizeArabicText text2).
Proof.
  rewrite calculateTextSimilarity_bag.
  case_bool_decide as Hn; [by rewrite Hn|].
  set (l1 := split_ws (normalizeArabicText text1)).
  set (l2 := split_ws (normalizeArabicText text2)).
  pose proof (bag_common_size l1 l2) as Hc.
  assert (Hpos : (0 < Nat.max (length l1) (length l2))%nat).
  { pose proof (split_ws_not_nil (normalizeArabicText text1)) as Hne.
    subst l1; destruct (split_ws (normalizeArabicText text1)); [done|simpl; lia]. }
  rewrite (ScorerFacts.ratio_one _ _ Hpos); split.
  - intros Hsize.
    assert (H1 : bag l1 ∩ bag l2 = bag l1)
      by (apply subseteq_same_size; [multiset_solver | rewrite bag_size; lia]).
    assert (H2 : bag l1 ∩ bag l2 = bag l2)
      by (apply subseteq_same_size; [multiset_solver | rewrite bag_size; lia]).
    by rewrite <- (bag_elements l1), <- (bag_elements l2), <- H1, H2.
  - intros Hperm.
    assert (bag l1 = bag l2) as -> by (unfold bag; by rewrite Hperm).
    assert (bag l2 ∩ bag l2 = bag l2) as -> by multiset_solver.
    rewrite bag_size, (Permutation_length Hperm); lia.
Qed.

End TextScoreFacts.

(** ** The differences of the comparator *)

Module DifferenceFacts.
Import FinalAnalysis.

Lemma diff_words_nil_r l : diff_words l [] = map extra_detail l.
Proof. by destruct l. Qed.

Lemma words_truthy s w : w ∈ words s → truthy w = true.
Proof.
  rewrite TokenFacts.words_nonempty. intros [Hw _]%list_elem_of_filter. by destruct w.
Qed.

Section Loop.
Context (s t : str) (Hs : normal s) (Ht : normal t).

Lemma compare_loop_diff n i differences :
  (n + i = Nat.max (length (words s)) (length (words t)))%nat →
  compare_loop (words s) (words t) n i differences =
  differences ++ diff_words (drop i (words s)) (drop i (words t)).
Proof using Hs Ht.
  revert i differences; induction n as [|n IH]; intros i d Hn.
  - rewrite !drop_ge by lia. simpl; by rewrite app_nil_r.
  - cbn [compare_loop]; rewrite IH by lia; clear IH.
    destruct (words s !! i) as [w1|] eqn:E1, (words t !! i) as [w2|] eqn:E2.
    + rewrite (drop_S _ _ _ E1), (drop_S _ _ _ E2).
      pose proof (list_elem_of_lookup_2 _ _ _ E1) as H1.
      pose proof (list_elem_of_lookup_2 _ _ _ E2) as H2.
      cbn [truthy_opt diff_words].
      rewrite (words_truthy _ _ H1), (words_truthy _ _ H2); cbn [andb].
      destruct (decide (w1 = w2)) as [->|Hne].
      * by rewrite bool_decide_eq_false_2 by (intros H; by apply H).
      * rewrite bool_decide_eq_true_2 by congruence.
        cbn [from_option]; unfold id.
        rewrite (ComparatorFacts.calculateTextSimilarity_two_words s t) by done.
        by rewrite <- app_assoc.
    + rewrite (drop_S _ _ _ E1).
      rewrite (drop_ge (words t) i), (drop_ge (words t) (S i))
        by (apply lookup_ge_None in E2; lia).
      cbn [truthy_opt diff_words].
      rewrite (words_truthy _ w1) by (by eapply list_elem_of_lookup_2).
      cbn [andb negb]. by rewrite diff_words_nil_r, <- app_assoc.
    + rewrite (drop_S _ _ _ E2).
      rewrite (drop_ge (words s) i), (drop_ge (words s) (S i))
        by (apply lookup_ge_None in E1; lia).
      cbn [truthy_opt diff_words].
      rewrite (words_truthy _ w2) by (by eapply list_elem_of_lookup_2).
      cbn [andb negb]. by rewrite <- app_assoc.
    + apply lookup_ge_None in E1, E2; lia.
Qed.

End Loop.

Lemma compareTexts_diff_words (spoken original : str) :
  (compareTexts spoken original).1 =
  diff_words (words (normalizeArabicText spoken))
             (words (normalizeArabicText original)).
Proof.
  unfold compareTexts; cbn [fst].
  rewrite compare_loop_diff; [reflexivity | apply normalizeArabicText_normal
    | apply normalizeArabicText_normal | lia].
Qed.

(** X20: the differences that the comparator returns are those of the
    two word sequences set side by side: at an index where both have a
    word and the words differ an [incorrect] entry (with similarity 0),
    then an [extra] entry for every spoken word beyond the reference, or
    a [missing] entry for every reference word beyond the transcript. *)
Theorem compareTexts_differences (spoken original : str) :
  (compareTexts spoken original).1 =
  diff_words (words (normalizeArabicText spoken))
             (words (normalizeArabicText original)).
Proof. apply compareTexts_diff_words. Qed.

Lemma diff_words_nil_iff sw ow : diff_words sw ow = [] ↔ sw = ow.
Proof.
  revert ow; induction sw as [|s sw IH]; intros [|o ow]; simpl; try done.
  destruct (decide (s = o)) as [->|Hne]; simpl.
  - rewrite IH; split; congruence.
  - split; [discriminate | congruence].
Qed.

Lemma words_injective s t : normal s → normal t → words s = words t → s = t.
Proof.
  intros Hs Ht H.
  by rewrite <- (TokenFacts.join_words_normal s), <- (TokenFacts.join_words_normal t), H.
Qed.

(** X21: the comparator returns no difference exactly when the two
    normalized texts are the same, and then the similarity is 1. *)
Theorem compareTexts_no_difference_iff (spoken original : str) :
  ((compareTexts spoken original).1 = [] ↔
     normalizeArabicText spoken = normalizeArabicText original)
  ∧ ((compareTexts spoken original).1 = [] → (compareTexts spoken original).2 = 1%Q).
Proof.
  assert (H : (compareTexts spoken original).1 = [] ↔
              normalizeArabicText spoken = normalizeArabicText original).
  { rewrite compareTexts_diff_words, diff_words_nil_iff; split; [|congruence].
    apply words_injective; apply normalizeArabicText_normal. }
  split; [exact H|]. intros Hn%H.
  unfold compareTexts, calculateTextSimilarity; cbn [snd].
  by rewrite !(normal_fixed _ (normalizeArabicText_normal _)), Hn,
    bool_decide_eq_true_2.
Qed.

Lemma count_type_app ty l l' :
  count_type ty (l ++ l') = (count_type ty l + count_type ty l')%nat.
Proof. unfold count_type; by rewrite filter_app, length_app. Qed.

Lemma count_type_map ty (f : str → ErrorDetail.t) l :
  (∀ w, ErrorDetail.type (f w) = ty) → count_type ty (map f l) = length l.
Proof.
  intros Hf; unfold count_type; induction l as [|w l IH]; [reflexivity|]; simpl.
  rewrite filter_cons, decide_True by apply Hf. simpl; by rewrite IH.
Qed.

Lemma count_type_map_other ty (f : str → ErrorDetail.t) l :
  (∀ w, ErrorDetail.type (f w) ≠ ty) → count_type ty (map f l) = 0%nat.
Proof.
  intros Hf; unfold count_type; induction l as [|w l IH]; [reflexivity|]; simpl.
  by rewrite filter_cons, decide_False by apply Hf.
Qed.

Lemma diff_words_counts sw ow :
  count_type missing (diff_words sw ow) = (length ow - length sw)%nat
  ∧ count_type extra (diff_words sw ow) = (length sw - length ow)%nat
  ∧ (count_type incorrect (diff_words sw ow) ≤ Nat.min (length sw) (length ow))%nat.
Proof.
  revert ow; induction sw as [|s sw IH]; intros [|o ow].
  - by repeat split.
  - cbn [diff_words]. rewrite (count_type_map missing) by done.
    rewrite (count_type_map_other extra), (count_type_map_other incorrect)
      by (by intros ? ?).
    simpl; lia.
  - cbn [diff_words]. rewrite (count_type_map extra) by done.
    rewrite (count_type_map_other missing), (count_type_map_other incorrect)
      by (by intros ? ?).
    simpl; lia.
  - cbn [diff_words]; rewrite !count_type_app.
    destruct (IH ow) as (Hm & He & Hi); rewrite Hm, He.
    assert (Hnil : ∀ ty, count_type ty [] = 0%nat) by reflexivity.
    assert (H1 : count_type missing [incorrect_detail s o] = 0%nat) by reflexivity.
    assert (H2 : count_type extra [incorrect_detail s o] = 0%nat) by reflexivity.
    assert (H3 : count_type incorrect [incorrect_detail s o] = 1%nat) by reflexivity.
    destruct (decide (s = o)); rewrite ?Hnil, ?H1, ?H2, ?H3; simpl length; lia.
Qed.

End DifferenceFacts.

(** ** The numbers of the report *)

Module ReportFacts.
Import FinalAnalysis.

Lemma POST_json transcript fullText realtimeErrors a :
  POST transcript fullText realtimeErrors = json_response a →
  let differences := (compareTexts transcript fullText).1 in
  let similarity := (compareTexts transcript fullText).2 in
  let totalWords := length (words (normalizeArabicText fullText)) in
  let spokenWords := length (words (normalizeArabicText transcript)) in
  a = mkAnalysis
        (inject_Z (Math_round (similarity * 100 * 10)) / 10)%Q
        (number_scale (λ q, inject_Z (Math_round (q * 10)) / 10)%Q
           (Math_min (number_scale (λ q, q * 100)%Q (length_div spokenWords totalWords))
              100))
        totalWords spokenWords (length differences)
        (mkByType (filter (has_type incorrect) differences)
                  (filter (has_type missing) differences)
                  (filter (has_type extra) differences))
        (mkCounts (count_type incorrect differences)
                  (count_type missing differences)
                  (count_type extra differences)).
Proof.
  unfold POST.
  destruct (negb (truthy transcript) || negb (truthy fullText)); [discriminate|].
  destruct (compareTexts transcript fullText) as [differences similarity].
  by intros [= <-].
Qed.

(** X22: in a report the number of [missing] entries is the number of
    reference words beyond the spoken ones, the number of [extra] entries
    the number of spoken words beyond the reference ones, the number of
    [incorrect] entries is at most the smaller of the two word counts,
    and the total is the sum of the three. *)
Theorem POST_error_counts (transcript fullText : str)
    (realtimeErrors : list RealtimeError.t) (a : analysis) :
  POST transcript fullText realtimeErrors = json_response a →
  missing_count (error_counts a) = (total_words a - spoken_words a)%nat
  ∧ extra_count (error_counts a) = (spoken_words a - total_words a)%nat
  ∧ (incorrect_count (error_counts a) ≤ Nat.min (spoken_words a) (total_words a))%nat
  ∧ total_errors a =
      (incorrect_count (error_counts a) + missing_count (error_counts a)
       + extra_count (error_counts a))%nat.
Proof.
  intros -> %POST_json.
  cbn [error_counts missing_count extra_count incorrect_count total_words
       spoken_words total_errors].
  rewrite DifferenceFacts.compareTexts_diff_words.
  destruct (DifferenceFacts.diff_words_counts
              (words (normalizeArabicText transcript))
              (words (normalizeArabicText fullText))) as (Hm & He & Hi).
  repeat split; [exact Hm | exact He | exact Hi |].
  rewrite (Permutation_length (ComparatorFacts.by_type_permutation _)) at 1.
  rewrite !length_app; unfold count_type; lia.
Qed.

Lemma POST_error_counts_witness :
  ∃ a, POST session_transcript session_text [] = json_response a
       ∧ missing_count (error_counts a) = 1%nat
       ∧ extra_count (error_counts a) = 0%nat
       ∧ total_errors a = 2%nat.
Proof.
  destruct (POST session_transcript session_text []) as [|a] eqn:E;
    [vm_compute in E; discriminate|].
  destruct (POST_error_counts _ _ _ _ E) as (Hm & He & _ & Ht).
  exists a; split; [reflexivity|].
  rewrite Ht, Hm, He.
  vm_compute in E; injection E as <-. repeat split.
Defined.

Lemma ratio_nonneg a b : (0 < b)%nat → (0 <= ratio a b)%Q.
Proof.
  intros Hb; destruct b as [|b]; [lia|]; rewrite ScorerFacts.ratio_unfold.
  unfold Qle; simpl; lia.
Qed.

Lemma Qfloor_half (n : Z) : Qfloor (inject_Z n + (1 # 2)) = n.
Proof.
  unfold Qfloor, Qplus, inject_Z; simpl.
  symmetry; apply (Z.div_unique _ 2 n 1); lia.
Qed.

Lemma Math_round_range (x : Q) (n : Z) :
  (0 <= x <= inject_Z n)%Q → (0 ≤ Math_round x ≤ n)%Z.
Proof.
  intros [H0 Hn]; unfold Math_round; split.
  - change 0%Z with (Qfloor 0%Q); apply Qfloor_resp_le.
    rewrite <- (Qplus_0_r 0). apply Qplus_le_compat; [exact H0 | discriminate].
  - rewrite <- (Qfloor_half n). by apply Qfloor_resp_le, Qplus_le_l.
Qed.

(** Rounding a percentage to one decimal keeps it a percentage. *)
Lemma round_tenths_range (x : Q) :
  (0 <= x <= 100)%Q → (0 <= inject_Z (Math_round (x * 10)) / 10 <= 100)%Q.
Proof.
  intros [H0 H100].
  assert (H : (0 ≤ Math_round (x * 10) ≤ 1000)%Z).
  { apply Math_round_range; split.
    - rewrite <- (Qmult_0_l 10). apply Qmult_le_compat_r; [exact H0 | discriminate].
    - change (inject_Z 1000) with (100 * 10)%Q.
      apply Qmult_le_compat_r; [exact H100 | discriminate]. }
  revert H; generalize (Math_round (x * 10)); intros z H.
  unfold Qdiv, Qmult, Qinv, Qle, inject_Z; simpl; lia.
Qed.

Lemma scale_100_range (x : Q) : (0 <= x <= 1)%Q → (0 <= x * 100 <= 100)%Q.
Proof.
  intros [H0 H1]; split.
  - rewrite <- (Qmult_0_l 100). apply Qmult_le_compat_r; [exact H0 | discriminate].
  - change (100 : Q) with (1 * 100)%Q at 2.
    apply Qmult_le_compat_r; [exact H1 | discriminate].
Qed.

(** X23: the accuracy of a report lies between 0 and 100, and so does the
    completion when the reference has a word. *)
Theorem POST_percentages (transcript fullText : str)
    (realtimeErrors : list RealtimeError.t) (a : analysis) :
  POST transcript fullText realtimeErrors = json_response a →
  (0 <= overall_accuracy a <= 100)%Q
  ∧ ((0 < total_words a)%nat →
     ∃ q, completion_percentage a = Finite q ∧ (0 <= q <= 100)%Q).
Proof.
  intros -> %POST_json.
  cbn [overall_accuracy completion_percentage total_words]; split.
  - apply round_tenths_range, scale_100_range.
    apply TextScoreFacts.calculateTextSimilarity_bounds.
  - intros Hpos.
    destruct (length (words (normalizeArabicText fullText))) as [|t] eqn:Et; [lia|].
    cbn [length_div number_scale Math_min].
    eexists; split; [reflexivity|].
    apply round_tenths_range.
    pose proof (ratio_nonneg (length (words (normalizeArabicText transcript))) (S t)
                  ltac:(lia)) as Hr.
    destruct (Qle_bool _ 100) eqn:E.
    + apply Qle_bool_iff in E; split; [|exact E].
      rewrite <- (Qmult_0_l 100). apply Qmult_le_compat_r; [exact Hr | discriminate].
    + split; [discriminate | apply Qle_refl].
Qed.

Lemma POST_percentages_witness :
  ∃ a, POST session_transcript session_text [] = json_response a
       ∧ (0 <= overall_accuracy a <= 100)%Q.
Proof.
  destruct (POST session_transcript session_text []) as [|a] eqn:E;
    [vm_compute in E; discriminate|].
  exists a; split; [reflexivity|].
  apply (POST_percentages _ _ _ _ E).
Defined.

End ReportFacts.

(** ** The suggestions *)

Module SuggestionFacts.
Import Suggestions.

Lemma fallbacks_well_formed :
  Forall well_formed Suggestions.fallback_suggestions
  ∧ Forall well_formed Suggestions.error_suggestions.
Proof. split; repeat constructor; vm_compute; lia. Qed.

Lemma reply_suggestions_well_formed text :
  Forall well_formed
    (filter (λ suggestion, (10 < length suggestion)%nat)
       (map (λ line, trim (strip_marker line))
          (filter (λ line, is_candidate line = true) (split_lines text)))).
Proof.
  apply Forall_forall; intros s [Hlen Hs]%list_elem_of_filter.
  split; [exact Hlen|].
  apply list_elem_of_fmap in Hs as (line & -> & _). apply trim_idem.
Qed.

(** X24: whatever the reply of the text generator is, and also when it
    fails, the suggestions are at least one and at most five, each of
    more than ten code units and without whitespace at its ends. *)
Theorem generateImprovementSuggestions_shape (reply : option str) :
  (1 ≤ length (generateImprovementSuggestions reply) ≤ 5)%nat
  ∧ Forall well_formed (generateImprovementSuggestions reply).
Proof.
  destruct reply as [text|]; [|split; [simpl; lia | apply fallbacks_well_formed]].
  unfold generateImprovementSuggestions.
  pose proof (reply_suggestions_well_formed text) as Hwf.
  destruct (length _ =? 0)%nat eqn:E.
  - split; [simpl; lia | apply fallbacks_well_formed].
  - apply Nat.eqb_neq in E. split.
    + rewrite length_take; lia.
    + by apply Forall_take.
Qed.

Lemma skip_digits_head rest c tail :
  skip is_digit rest = c :: tail → c = 0x2E →
  ∃ d rest', rest = d :: rest' ∧ (is_digit d = true ∨ d = 0x2E).
Proof.
  destruct rest as [|d rest']; [discriminate|]; simpl.
  destruct (is_digit d) eqn:Ed; [eauto|].
  intros [= -> ->] ->; eauto.
Qed.

Lemma trim_keeps_head d rest :
  is_space d = false → ∃ tail, trim (d :: rest) = d :: tail.
Proof.
  intros Hd; unfold trim; simpl; rewrite Hd, trim_end_cons.
  destruct (trim_end rest); rewrite ?Hd; eauto.
Qed.

(** X25: of a line that starts with a number and a dot, only the first
    digit is taken off: the suggestion made of it starts with a digit or
    with the dot. *)
Theorem numbered_line_keeps_dot (line : str) :
  numbered line = true →
  ∃ c tail, trim (strip_marker line) = c :: tail ∧ (is_digit c = true ∨ c = 0x2E).
Proof.
  destruct line as [|d rest]; [discriminate|]; simpl.
  intros [Hd Hdot]%andb_true_iff; rewrite Hd, !orb_true_r, orb_true_l.
  destruct (skip is_digit rest) as [|c tail] eqn:E; [discriminate|].
  apply N.eqb_eq in Hdot.
  destruct (skip_digits_head _ _ _ E Hdot) as (x & rest' & -> & Hx).
  assert (Hsp : is_space x = false).
  { destruct Hx as [Hx| ->]; [|reflexivity].
    destruct (is_space x) eqn:Es; [|reflexivity].
    assert (H : in_range 0x30 0x39 x = false)
      by (apply TokenFacts.space_not_in_range; (lia || done)).
    change (in_range 0x30 0x39 x) with (is_digit x) in H; congruence. }
  simpl skip; rewrite Hsp.
  destruct (trim_keeps_head x rest' Hsp) as [t Ht]; eauto.
Qed.

Lemma numbered_line_keeps_dot_witness :
  ∃ c tail,
    trim (strip_marker (codes "1. Focus on pronunciation accuracy")) = c :: tail
    ∧ (is_digit c = true ∨ c = 0x2E).
Proof.
  apply (numbered_line_keeps_dot (codes "1. Focus on pronunciation accuracy")).
  reflexivity.
Defined.

End SuggestionFacts.

(** ** The recitation page *)

Module PageFacts.

Lemma normalizeArabicText_letters_page s :
  RecitePage.normalizeArabicText s =
  trim (replace_runs is_space [32] (letters_page s)).
Proof.
  destruct s as [|c s]; [reflexivity|].
  unfold RecitePage.normalizeArabicText, letters_page.
  change (negb (truthy (c :: s))) with false; cbv iota zeta.
  by rewrite replace_verse_markers_id, replace_runs_empty.
Qed.

Lemma letters_page_app s t : letters_page (s ++ t) = letters_page s ++ letters_page t.
Proof. unfold letters_page; by rewrite !replace_class_app. Qed.

Lemma one_of_false cs c : Forall (λ d, c ≠ d) cs → one_of cs c = false.
Proof.
  unfold one_of; induction 1 as [|d cs Hd _ IH]; [reflexivity|]; simpl.
  by rewrite IH, orb_false_r; apply N.eqb_neq.
Qed.

Ltac sub := intros ?; rewrite !elem_of_cons, !elem_of_nil; tauto.

(** The steps of the routes do all that the steps of the page do. *)
Lemma letters_page_single c : letters (letters_page [c]) = letters [c].
Proof.
  destruct (decide (c ∈ [0x0670; 0x0640; 0x0623; 0x0625; 0x0622; 0x0671;
                        0x0649; 0x0626; 0x0629])) as [Hin|Hout].
  { repeat (apply elem_of_cons in Hin as [->|Hin]; [reflexivity|]).
    by apply elem_of_nil in Hin. }
  assert (Hne : Forall (λ d, c ≠ d) [0x0670; 0x0640; 0x0623; 0x0625; 0x0622; 0x0671;
                                    0x0649; 0x0626; 0x0629]).
  { apply Forall_forall; intros d Hd ->; by apply Hout. }
  assert (Hno : ∀ cs, cs ⊆ [0x0670; 0x0640; 0x0623; 0x0625; 0x0622; 0x0671;
                            0x0649; 0x0626; 0x0629] → one_of cs c = false).
  { intros cs Hcs; apply one_of_false, Forall_forall; intros d Hd.
    rewrite Forall_forall in Hne; apply Hne, Hcs, Hd. }
  assert (H1 : one_of [0x0670; 0x0640] c = false) by (apply Hno; sub).
  assert (H2 : one_of [0x0670] c = false) by (apply Hno; sub).
  assert (H3 : one_of [0x0640] c = false) by (apply Hno; sub).
  assert (H4 : one_of [0x0623; 0x0625; 0x0622; 0x0671] c = false) by (apply Hno; sub).
  assert (H5 : one_of [0x0649; 0x0626] c = false) by (apply Hno; sub).
  assert (H6 : one_of [0x0629] c = false) by (apply Hno; sub).
  unfold letters_page.
  rewrite !(replace_class_single _ _ c), H1, orb_false_r.
  destruct (in_range 0x064B 0x0652 c) eqn:E1.
  - unfold letters; by rewrite !(replace_class_single _ _ c), E1.
  - rewrite !(replace_class_single _ _ c), H4.
    rewrite !(replace_class_single _ _ c), H5.
    rewrite !(replace_class_single _ _ c), H6.
    rewrite !(replace_class_single _ _ c).
    destruct (is_digit c) eqn:Ed; [|reflexivity].
    unfold letters.
    repeat (rewrite (replace_class_single _ _ c);
            match goal with
            | |- context [if ?b then _ else _] =>
                lazymatch b with
                | context [c] => destruct b eqn:?
                end
            end; try congruence; try reflexivity).
Qed.

Lemma letters_after_page s : letters (letters_page s) = letters s.
Proof.
  induction s as [|c s IH]; [reflexivity|].
  change (c :: s) with ([c] ++ s).
  by rewrite letters_page_app, !letters_app, letters_page_single, IH.
Qed.

Lemma split_each_letters_page s :
  split_each (letters_page s) = map letters_page (split_each s).
Proof.
  unfold letters_page.
  repeat (rewrite TokenFacts.split_each_replace_class;
    [ | first [ intros c; apply (TokenFacts.space_not_in_range 0x30 0x39); lia
              | intros c; apply TokenFacts.space_not_one_of; repeat constructor; lia
              | intros c Hc; apply orb_false_iff; split;
                [ apply TokenFacts.space_not_in_range; (lia || done)
                | apply TokenFacts.space_not_one_of;
                  [repeat constructor; lia | done] ] ]
      | by repeat constructor ]).
  by rewrite !map_map.
Qed.

Lemma words_trim_collapse s :
  words (trim (replace_runs is_space [32] s)) = nonempty (split_each s).
Proof. by rewrite TokenFacts.words_each, TokenFacts.nonempty_trim. Qed.

Lemma words_page_each s :
  words (RecitePage.normalizeArabicText s) = nonempty (map letters_page (split_each s)).
Proof.
  by rewrite normalizeArabicText_letters_page, words_trim_collapse,
    split_each_letters_page.
Qed.

(** X26: normalizing, as the routes do, a text that the page has
    normalized gives what the routes make of the text itself. *)
Theorem normalizeArabicText_after_page (s : str) :
  normalizeArabicText (RecitePage.normalizeArabicText s) = normalizeArabicText s.
Proof.
  apply DifferenceFacts.words_injective; try apply normalizeArabicText_normal.
  rewrite !TokenFacts.words_normalize_each, normalizeArabicText_letters_page.
  rewrite <- (TokenFacts.nonempty_map letters) by reflexivity.
  rewrite TokenFacts.nonempty_trim, TokenFacts.nonempty_map by reflexivity.
  rewrite split_each_letters_page, map_map.
  f_equal; apply map_ext; intros w; apply letters_after_page.
Qed.

Lemma nonempty_letters_length l :
  (length (nonempty (map letters l)) ≤ length (nonempty (map letters_page l)))%nat.
Proof.
  induction l as [|w l IH]; [reflexivity|]; simpl.
  destruct (letters_page w) as [|c v] eqn:E.
  - rewrite <- (letters_after_page w), E. change (letters []) with (@nil N).
    by rewrite !TokenFacts.nonempty_nil.
  - rewrite (TokenFacts.nonempty_cons (c :: v)) by done.
    destruct (letters w); [rewrite TokenFacts.nonempty_nil
                          | rewrite TokenFacts.nonempty_cons by done]; simpl; lia.
Qed.

(** X27: the page never counts fewer words in a text than the routes do:
    a piece that the routes keep as a word is a word for the page too. *)
Theorem page_counts_no_fewer_words (s : str) :
  (length (words (normalizeArabicText s))
   ≤ length (words (RecitePage.normalizeArabicText s)))%nat.
Proof.
  rewrite TokenFacts.words_normalize_each, words_page_each.
  apply nonempty_letters_length.
Qed.

(** *** The text that [fetchSurahData] builds *)

Lemma uint_codes_digits u : Forall (λ c, is_digit c = true) (RecitePage.uint_codes u).
Proof. induction u; simpl; by repeat constructor. Qed.

Lemma split_each_no_space x : no_space x → split_each x = [x].
Proof.
  induction 1 as [|c x Hc _ IH]; [reflexivity|].
  by rewrite TokenFacts.split_each_cons, Hc, IH.
Qed.

Section Tokens.
(** The words that a normalizer with the code-unit steps [L] finds. *)
Context (L : str → str).
Context (L_app : ∀ a b, L (a ++ b) = L a ++ L b).
Context (L_nil : L [] = []).
Context (L_digits : ∀ u, L (RecitePage.uint_codes u) = []).
Context (L_open : L [0x28] = [0x28]) (L_close : L [0x29] = [0x29]).

Lemma tok_app_space s c t : is_space c = true → words_by L (s ++ c :: t) = words_by L s ++ words_by L t.
Proof using Type.
  intros Hc; unfold words_by.
  by rewrite TokenFacts.split_each_app, map_app, TokenFacts.nonempty_app.
Qed.

Lemma tok_nil : words_by L [] = [].
Proof using L_nil. unfold words_by; simpl; by rewrite L_nil, TokenFacts.nonempty_nil. Qed.

Lemma tok_app_closed s t : closed s → words_by L (s ++ t) = words_by L s ++ words_by L t.
Proof using L_nil.
  intros [->|(s' & c & -> & Hc)]; [by rewrite tok_nil|].
  rewrite <- app_assoc; simpl app.
  by rewrite !tok_app_space, tok_nil, app_nil_r.
Qed.

Lemma tok_marker n :
  words_by L ([0x28] ++ RecitePage.decimal n ++ [0x29; 32]) = [marker_word].
Proof using L_app L_nil L_digits L_open L_close.
  change ([0x28] ++ RecitePage.decimal n ++ [0x29; 32])
    with (0x28 :: RecitePage.decimal n ++ [0x29; 32]).
  replace (0x28 :: RecitePage.decimal n ++ [0x29; 32])
    with ((0x28 :: RecitePage.decimal n ++ [0x29]) ++ 32 :: [])
    by (simpl; by rewrite <- app_assoc).
  rewrite tok_app_space, tok_nil, app_nil_r by reflexivity.
  unfold words_by. rewrite split_each_no_space.
  - simpl map. change (0x28 :: RecitePage.decimal n ++ [0x29])
      with ([0x28] ++ RecitePage.decimal n ++ [0x29]).
    rewrite !L_app, L_open, L_close; unfold RecitePage.decimal; rewrite L_digits.
    reflexivity.
  - constructor; [reflexivity|]. apply Forall_app; split; [|by repeat constructor].
    eapply Forall_impl; [apply uint_codes_digits|]. intros c Hc; simpl in Hc.
    destruct (is_space c) eqn:Es; [|reflexivity].
    assert (H : in_range 0x30 0x39 c = false)
      by (apply TokenFacts.space_not_in_range; (lia || done)).
    change (in_range 0x30 0x39 c) with (is_digit c) in H; congruence.
Qed.

Lemma tok_build_text ayahs index text :
  closed text →
  words_by L (RecitePage.build_text index ayahs text) =
  words_by L text ++ flat_map (λ ayah, words_by L ayah ++ [marker_word]) ayahs.
Proof using L_app L_nil L_digits L_open L_close.
  revert index text; induction ayahs as [|ayah rest IH]; intros index text Hcl.
  - simpl; by rewrite app_nil_r.
  - cbn [RecitePage.build_text flat_map]. rewrite IH.
    + rewrite (tok_app_closed text) by exact Hcl.
      change (ayah ++ [32; 0x28] ++ RecitePage.decimal (index + 1) ++ [0x29; 32])
        with (ayah ++ 32 :: ([0x28] ++ RecitePage.decimal (index + 1) ++ [0x29; 32])).
      rewrite tok_app_space, tok_marker by reflexivity.
      by rewrite <- !app_assoc.
    + right.
      exists (text ++ ayah ++ [32; 0x28] ++ RecitePage.decimal (index + 1) ++ [0x29]), 32.
      split; [|reflexivity]. rewrite <- !app_assoc. reflexivity.
Qed.

Lemma tok_trim s : words_by L (trim s) = words_by L s.
Proof using L_nil.
  unfold words_by, trim.
  rewrite <- (TokenFacts.nonempty_map L) by exact L_nil.
  rewrite (TokenFacts.same_pieces_nonempty _ _ (TokenFacts.same_pieces_trim_end _)).
  rewrite TokenFacts.nonempty_skip.
  by rewrite TokenFacts.nonempty_map by exact L_nil.
Qed.

End Tokens.

Lemma letters_digits u : letters (RecitePage.uint_codes u) = [].
Proof.
  induction u as [|u IH|u IH|u IH|u IH|u IH|u IH|u IH|u IH|u IH|u IH];
    [reflexivity|..]; simpl RecitePage.uint_codes;
    rewrite letters_cons, IH; reflexivity.
Qed.

Lemma letters_page_digits u : letters_page (RecitePage.uint_codes u) = [].
Proof.
  induction u as [|u IH|u IH|u IH|u IH|u IH|u IH|u IH|u IH|u IH|u IH];
    [reflexivity|..]; simpl RecitePage.uint_codes;
    match goal with
    | |- letters_page (?c :: ?s) = _ =>
        change (c :: s) with ([c] ++ s); rewrite letters_page_app, IH
    end; reflexivity.
Qed.

(** X28: in the reference text that the page builds of the ayahs of a
    surah every ayah is followed by one more word, made of the two
    parentheses of its verse marker: the reference words of the aligner
    are the words of each ayah and this word after them, and the page
    counts one word more than each ayah has. *)
Theorem fetched_text_words (ayahs : list str) :
  referenceWords (RecitePage.fullText_of ayahs) =
    flat_map (λ ayah, words (normalizeArabicText ayah) ++ [marker_word]) ayahs
  ∧ RecitePage.totalWords_of ayahs =
    length (flat_map
              (λ ayah, words (RecitePage.normalizeArabicText ayah) ++ [marker_word])
              ayahs).
Proof.
  split.
  - unfold referenceWords, RecitePage.fullText_of.
    rewrite TokenFacts.words_normalize_each.
    change (nonempty (map letters (split_each ?x))) with (words_by letters x).
    rewrite (tok_trim letters) by reflexivity.
    rewrite (tok_build_text letters letters_app eq_refl letters_digits eq_refl eq_refl)
      by (by left).
    simpl. apply flat_map_ext; intros ayah.
    by rewrite TokenFacts.words_normalize_each.
  - unfold RecitePage.totalWords_of.
    rewrite words_page_each.
    change (nonempty (map letters_page (split_each ?x))) with (words_by letters_page x).
    rewrite (tok_build_text letters_page letters_page_app eq_refl letters_page_digits
               eq_refl eq_refl) by (by left).
    simpl. f_equal. apply flat_map_ext; intros ayah.
    by rewrite words_page_each.
Qed.

(** *** A finalized chunk *)

Lemma checkCurrentWords_within spoken fullText position :
  (0 ≤ position ≤ Z.of_nat (length (referenceWords fullText)))%Z →
  (position ≤ CheckRecitation.newPosition
                (CheckRecitation.checkCurrentWords spoken fullText position)
     ≤ Z.of_nat (length (referenceWords fullText)))%Z.
Proof.
  intros Hpos; rewrite AlignerFacts.checkCurrentWords_unfold.
  destruct (_ || _); [simpl; lia|].
  destruct (_ <=? _)%Z; [simpl; lia|].
  pose proof (AlignerFacts.check_loop_processed (referenceWords fullText) position
                (spokenTokens spoken) 0 [] 0%Z) as H.
  simpl in *; lia.
Qed.

Lemma checkCurrentWords_types spoken fullText position :
  Forall (λ e, RealtimeError.type e ≠ missing)
    (CheckRecitation.errors (CheckRecitation.checkCurrentWords spoken fullText position)).
Proof.
  rewrite AlignerFacts.checkCurrentWords_unfold.
  destruct (_ || _); [constructor|].
  destruct (_ <=? _)%Z; [constructor|].
  apply AlignerFacts.check_loop_types; [|constructor].
  intros e [H|H]; rewrite H; discriminate.
Qed.

Lemma progress_percent_nonneg (position : Z) (totalWords : nat) :
  (0 ≤ position)%Z → (0 < totalWords)%nat →
  (0 <= inject_Z position / inject_Z (Z.of_nat totalWords) * 100)%Q.
Proof.
  intros Hp Ht; destruct totalWords as [|t]; [lia|].
  unfold Qdiv, Qmult, Qinv, Qle, inject_Z; simpl; lia.
Qed.

(** X29: a finalized chunk leaves a sound state of the page sound: the
    cursor stays within the reference and does not go back, the progress
    stays between 0 and 100, and the errors shown so far stay, new ones
    (never a [missing] one) being added after them. *)
Theorem processRealtimeText_sound (fullText : str) (totalWords : nat)
    (st : RecitePage.state) (spokenText : str) :
  sound fullText st →
  sound fullText (RecitePage.processRealtimeText fullText totalWords st spokenText)
  ∧ (RecitePage.currentPosition st
     ≤ RecitePage.currentPosition
         (RecitePage.processRealtimeText fullText totalWords st spokenText))%Z
  ∧ RecitePage.realtimeErrors st `prefix_of`
      RecitePage.realtimeErrors
        (RecitePage.processRealtimeText fullText totalWords st spokenText).
Proof.
  intros (Hpos & Hprog & Hty); unfold RecitePage.processRealtimeText.
  destruct (_ || _);
    [split; [exact (conj Hpos (conj Hprog Hty)) | split; [lia | reflexivity]]|].
  pose proof (checkCurrentWords_within (trim spokenText) fullText _ Hpos) as Hnew.
  pose proof (checkCurrentWords_types (trim spokenText) fullText
                (RecitePage.currentPosition st)) as Hnty.
  set (result := CheckRecitation.checkCurrentWords _ _ _) in *.
  repeat split; cbn [RecitePage.currentPosition RecitePage.progress
                     RecitePage.realtimeErrors]; try lia.
  - destruct (0 <? totalWords)%nat eqn:Et; [|done].
    apply Nat.ltb_lt in Et.
    destruct (Qle_bool _ 100); [|done].
    apply progress_percent_nonneg; lia.
  - destruct (Qle_bool _ 100) eqn:E; [by apply Qle_bool_iff | apply Qle_refl].
  - destruct (0 <? _)%nat; [by apply Forall_app | done].
  - destruct (0 <? _)%nat; [by apply prefix_app_r | done].
Qed.

Lemma processRealtimeText_sound_witness :
  sound session_text
    (RecitePage.processRealtimeText session_text 3 RecitePage.startRecording word_dal).
Proof.
  apply (processRealtimeText_sound session_text 3 RecitePage.startRecording word_dal).
  repeat split; try discriminate. constructor.
Defined.

End PageFacts.
